(** * TTB label verifier: the batch console (web/src/App.tsx) and the
      verification pipeline it talks to.

    The first half of this development embeds the React component of
    [App.tsx]: its state, its event handlers and the reader loop that
    consumes the server-sent event stream.  React state is threaded
    explicitly; every handler is a function on [AppState].

    The second half covers the server side (rule set, extraction state
    machine, resolver), whose Python modules are not among the sources at
    hand; those definitions are marked as modelled from the specification. *)

From Stdlib Require Import ZArith Ascii String List Lia Permutation.
From stdpp Require Import base option list gmap sets strings pretty.

#[local] Set Warnings "-clear-no-such-hyp".


(** ** JavaScript string primitives used by the component *)

Module JS.

Definition LF : ascii := "010"%char.
Definition nl : string := String LF "".

(** [String.prototype.trim] strips white space and line terminators; on
    code units below 256 these are TAB, LF, VT, FF, CR, SPACE and NBSP. *)
Definition is_white (c : ascii) : bool :=
  match c with
  | "009" | "010" | "011" | "012" | "013" | " " | "160" => true
  | _ => false
  end%char.

Fixpoint trimStart (s : string) : string :=
  match s with
  | String c s' => if is_white c then trimStart s' else s
  | "" => ""
  end.

Fixpoint all_white (s : string) : bool :=
  match s with
  | String c s' => is_white c && all_white s'
  | "" => true
  end.

Fixpoint trimEnd (s : string) : string :=
  match s with
  | String c s' => if all_white s then "" else String c (trimEnd s')
  | "" => ""
  end.

Definition trim (s : string) : string := trimEnd (trimStart s).

Definition startsWith (s p : string) : bool := String.prefix p s.

Fixpoint drop (n : nat) (s : string) : string :=
  match n, s with
  | S k, String _ s' => drop k s'
  | _, _ => s
  end.

(** [s.replace(pat, rep)] with a string pattern: the first occurrence only. *)
Fixpoint replace (pat rep s : string) : string :=
  if String.prefix pat s then rep +:+ drop (String.length pat) s
  else match s with
       | String c s' => String c (replace pat rep s')
       | "" => ""
       end.

(** [s.split(sep)] for a non-empty separator: leftmost, non-overlapping
    occurrences.  [skip] counts the separator characters still to be
    dropped, [cur] is the piece being accumulated. *)
Fixpoint split_go (sep : string) (skip : nat) (cur s : string) : list string :=
  match s with
  | "" => [cur]
  | String c s' =>
      match skip with
      | S k => split_go sep k cur s'
      | O =>
          if String.prefix sep s
          then cur :: split_go sep (String.length sep - 1) "" s'
          else split_go sep 0 (cur +:+ String c "") s'
      end
  end.

Definition split (sep s : string) : list string := split_go sep 0 "" s.

(** [arr.pop()] as used on the pieces of a split: the last element and
    the array without it. *)
Definition pop {A} (l : list A) : option A * list A :=
  (last l, removelast l).

End JS.

(** ** Data model (the type declarations of App.tsx) *)

Inductive BeverageType := AUTO | SPIRITS | BEER | WINE.

Module UploadedImage.
Record t := mk {
  id : string;
  filename : string;
  content_type : string;
  storage_key : string;
  size_bytes : Z;
  preview_url : string }.
End UploadedImage.

Module GroupImage.
Record t := mk {
  id : string;
  filename : string;
  storage_key : string;
  preview_url : string }.
End GroupImage.

Module LabelGroup.
Record t := mk {
  label_id : string;
  label_name : string;
  beverage_type : BeverageType;
  images : list GroupImage.t }.
End LabelGroup.

Inductive FieldStatus := fs_pass | fs_fail | fs_unreadable.

Module FieldResult.
Record t := mk {
  field_name : string;
  status : FieldStatus;
  extracted_value : option string;
  failure_reason : option string;
  cfr_reference : option string;
  found_on_image : option Z }.
End FieldResult.

Inductive OverallStatus := PASS | FAIL | ESCALATE | RETRY | ERROR.

Module LabelResult.
Record t := mk {
  label_id : string;
  label_name : string;
  overall_status : OverallStatus;
  beverage_type : BeverageType;
  fields : list FieldResult.t;
  escalation_reason : option string;
  images_processed : Z }.
End LabelResult.

Module BatchEvent.
Record t := mk {
  batch_id : string;
  completed : Z;
  total : Z;
  result : LabelResult.t }.
End BatchEvent.

(** A browser [File]: only its name and MIME type are inspected. *)
Module File.
Record t := mk { name : string; type : string }.
End File.

Definition MAX_BATCH : nat := 100.

(** ** Label naming *)

Fixpoint has_dot (s : string) : bool :=
  match s with
  | String c s' => Ascii.eqb c "." || has_dot s'
  | "" => false
  end.

(** [s.replace(/\.[^.]+$/, "")]: the match starts at a dot that is followed,
    up to the end, by at least one character and no further dot. *)
Fixpoint strip_extension (s : string) : string :=
  match s with
  | String c s' =>
      if Ascii.eqb c "." && negb (has_dot s') && negb (String.eqb s' "")
      then ""
      else String c (strip_extension s')
  | "" => ""
  end.

Definition is_sep (c : ascii) : bool := Ascii.eqb c "_" || Ascii.eqb c "-".

(** [s.replace(/[_-]+/g, " ")]: every maximal run becomes one space. *)
Fixpoint collapse_seps (in_run : bool) (s : string) : string :=
  match s with
  | String c s' =>
      if is_sep c
      then (if in_run then collapse_seps true s'
            else String " " (collapse_seps true s'))
      else String c (collapse_seps false s')
  | "" => ""
  end.

Definition baseLabelName (filename : string) : string :=
  let t := JS.trim (collapse_seps false (strip_extension filename)) in
  if String.eqb t "" then "Untitled Label" else t.

Class HasFilename (A : Type) := filename_of : A -> string.
#[global] Instance uploaded_has_filename : HasFilename UploadedImage.t :=
  UploadedImage.filename.
#[global] Instance group_image_has_filename : HasFilename GroupImage.t :=
  GroupImage.filename.

Definition suggestedLabelName {A} `{HasFilename A} (images : list A) : string :=
  match images with
  | [] => ""
  | [i] => baseLabelName (filename_of i)
  | i :: _ =>
      baseLabelName (filename_of i) +:+ " +" +:+
      pretty (length images - 1) +:+ " image(s)"
  end.

(** ** Component state: one field per [useState] cell *)

Record AppState := mkApp {
  files : option (list File.t);
  uploaded : list UploadedImage.t;
  selectedIds : gset string;
  groups : list LabelGroup.t;
  labelName : string;
  labelNameEdited : bool;
  beverageType : BeverageType;
  results : list LabelResult.t;
  batchId : string;
  completed : Z;
  total : Z;
  busy : bool;
  error : string }.

Definition initial : AppState :=
  mkApp None [] ∅ [] "" false AUTO [] "" 0 0 false "".

Definition setFiles (v : option (list File.t)) (s : AppState) : AppState :=
  mkApp v (uploaded s) (selectedIds s) (groups s) (labelName s)
    (labelNameEdited s) (beverageType s) (results s) (batchId s)
    (completed s) (total s) (busy s) (error s).
Definition setUploaded (f : list UploadedImage.t -> list UploadedImage.t)
    (s : AppState) : AppState :=
  mkApp (files s) (f (uploaded s)) (selectedIds s) (groups s) (labelName s)
    (labelNameEdited s) (beverageType s) (results s) (batchId s)
    (completed s) (total s) (busy s) (error s).
Definition setSelectedIds (f : gset string -> gset string)
    (s : AppState) : AppState :=
  mkApp (files s) (uploaded s) (f (selectedIds s)) (groups s) (labelName s)
    (labelNameEdited s) (beverageType s) (results s) (batchId s)
    (completed s) (total s) (busy s) (error s).
Definition setGroups (f : list LabelGroup.t -> list LabelGroup.t)
    (s : AppState) : AppState :=
  mkApp (files s) (uploaded s) (selectedIds s) (f (groups s)) (labelName s)
    (labelNameEdited s) (beverageType s) (results s) (batchId s)
    (completed s) (total s) (busy s) (error s).
Definition setLabelName (v : string) (s : AppState) : AppState :=
  mkApp (files s) (uploaded s) (selectedIds s) (groups s) v
    (labelNameEdited s) (beverageType s) (results s) (batchId s)
    (completed s) (total s) (busy s) (error s).
Definition setLabelNameEdited (v : bool) (s : AppState) : AppState :=
  mkApp (files s) (uploaded s) (selectedIds s) (groups s) (labelName s)
    v (beverageType s) (results s) (batchId s)
    (completed s) (total s) (busy s) (error s).
Definition setBeverageType (v : BeverageType) (s : AppState) : AppState :=
  mkApp (files s) (uploaded s) (selectedIds s) (groups s) (labelName s)
    (labelNameEdited s) v (results s) (batchId s)
    (completed s) (total s) (busy s) (error s).
Definition setResults (f : list LabelResult.t -> list LabelResult.t)
    (s : AppState) : AppState :=
  mkApp (files s) (uploaded s) (selectedIds s) (groups s) (labelName s)
    (labelNameEdited s) (beverageType s) (f (results s)) (batchId s)
    (completed s) (total s) (busy s) (error s).
Definition setBatchId (v : string) (s : AppState) : AppState :=
  mkApp (files s) (uploaded s) (selectedIds s) (groups s) (labelName s)
    (labelNameEdited s) (beverageType s) (results s) v
    (completed s) (total s) (busy s) (error s).
Definition setCompleted (v : Z) (s : AppState) : AppState :=
  mkApp (files s) (uploaded s) (selectedIds s) (groups s) (labelName s)
    (labelNameEdited s) (beverageType s) (results s) (batchId s)
    v (total s) (busy s) (error s).
Definition setTotal (v : Z) (s : AppState) : AppState :=
  mkApp (files s) (uploaded s) (selectedIds s) (groups s) (labelName s)
    (labelNameEdited s) (beverageType s) (results s) (batchId s)
    (completed s) v (busy s) (error s).
Definition setBusy (v : bool) (s : AppState) : AppState :=
  mkApp (files s) (uploaded s) (selectedIds s) (groups s) (labelName s)
    (labelNameEdited s) (beverageType s) (results s) (batchId s)
    (completed s) (total s) v (error s).
Definition setError (v : string) (s : AppState) : AppState :=
  mkApp (files s) (uploaded s) (selectedIds s) (groups s) (labelName s)
    (labelNameEdited s) (beverageType s) (results s) (batchId s)
    (completed s) (total s) (busy s) v.

(** ** Derived values ([useMemo]) *)

Definition selectedImages (s : AppState) : list UploadedImage.t :=
  filter (λ item, UploadedImage.id item ∈ selectedIds s) (uploaded s).

Definition groupedIds (gs : list LabelGroup.t) : gset string :=
  list_to_set (gs ≫= λ g, GroupImage.id <$> LabelGroup.images g).

Definition poolImages (s : AppState) : list UploadedImage.t :=
  filter (λ item, UploadedImage.id item ∉ groupedIds (groups s)) (uploaded s).

(** [index.set(group.label_id, group)] for each group in order: a later
    group with the same id replaces an earlier one. *)
Definition groupByLabelId (gs : list LabelGroup.t) : gmap string LabelGroup.t :=
  foldl (λ index group, <[LabelGroup.label_id group := group]> index) ∅ gs.

(** The [useEffect] that keeps the suggested name in step with the
    selection while the user has not typed a name. *)
Definition labelNameEffect (s : AppState) : AppState :=
  if labelNameEdited s then s
  else setLabelName (suggestedLabelName (selectedImages s)) s.

(** ** Handlers *)

Definition toggle (id : string) (prev : gset string) : gset string :=
  if bool_decide (id ∈ prev) then prev ∖ {[id]}
  else if bool_decide (3 ≤ size prev)%nat then prev
  else {[id]} ∪ prev.

Definition toggleSelection (id : string) (s : AppState) : AppState :=
  setSelectedIds (toggle id) s.

Definition toGroupImage (img : UploadedImage.t) : GroupImage.t :=
  GroupImage.mk (UploadedImage.id img) (UploadedImage.filename img)
    (UploadedImage.storage_key img) (UploadedImage.preview_url img).

(** *** uploadFiles *)

Definition accepted_type (file : File.t) : bool :=
  bool_decide (File.type file ∈ ["image/jpeg"; "image/png"]).

Definition unsupported_message (file : File.t) : string :=
  "Unsupported file type: " +:+ File.name file +:+ ". Only JPEG/PNG allowed.".

(** The loop that fills the form: stops at the first file of another type. *)
Fixpoint fill_form (localFiles form : list File.t) : string + list File.t :=
  match localFiles with
  | [] => inr form
  | file :: rest =>
      if accepted_type file then fill_form rest (form ++ [file])
      else inl (unsupported_message file)
  end.

(** What leaves the browser: the multipart body of [POST /upload]. *)
Record UploadRequest := mkUpload {
  form_files : list File.t;
  localFiles : list File.t }.

(** The part of [uploadFiles] before the [await]: the new state and the
    request, if one is sent. *)
Definition uploadFiles_begin (s : AppState) : AppState * option UploadRequest :=
  let s := setError "" s in
  match files s with
  | None | Some [] => (setError "Choose at least one JPEG or PNG image." s, None)
  | Some fs =>
      match fill_form fs [] with
      | inl msg => (setError msg s, None)
      | inr form => (s, Some (mkUpload form fs))
      end
  end.

Inductive UploadResponse :=
| UploadNotOk (detail : option string)
| UploadOk (data : list UploadedImage.t)
| UploadRejected.

(** [data.map((item, idx) => ({...item, preview_url: createObjectURL(localFiles[idx])}))];
    [None] when some [localFiles[idx]] is undefined and the call throws. *)
Fixpoint merge_previews (createObjectURL : File.t -> string)
    (data : list UploadedImage.t) (lf : list File.t)
    : option (list UploadedImage.t) :=
  match data with
  | [] => Some []
  | item :: data' =>
      match lf with
      | [] => None
      | file :: lf' =>
          rest ← merge_previews createObjectURL data' lf';
          Some (UploadedImage.mk (UploadedImage.id item)
                  (UploadedImage.filename item)
                  (UploadedImage.content_type item)
                  (UploadedImage.storage_key item)
                  (UploadedImage.size_bytes item)
                  (createObjectURL file) :: rest)
      end
  end.

(** The part after the [await]; an exception there escapes the handler and
    leaves the state as it was. *)
Definition uploadFiles_resume (createObjectURL : File.t -> string)
    (req : UploadRequest) (res : UploadResponse) (s : AppState) : AppState :=
  match res with
  | UploadNotOk detail => setError (default "Upload failed" detail) s
  | UploadOk data =>
      match merge_previews createObjectURL data (localFiles req) with
      | Some merged => setFiles None (setUploaded (λ prev, prev ++ merged) s)
      | None => s
      end
  | UploadRejected => s
  end.

Definition uploadFiles (createObjectURL : File.t -> string)
    (server : UploadRequest -> UploadResponse) (s : AppState) : AppState :=
  match uploadFiles_begin s with
  | (s', Some req) => uploadFiles_resume createObjectURL req (server req) s'
  | (s', None) => s'
  end.

(** *** createGroup and createSinglesFromPool *)

Definition createGroup (uuid : string) (s : AppState) : AppState :=
  let s := setError "" s in
  let sel := selectedImages s in
  if (length sel <? 1) || (3 <? length sel)
  then setError "Select 1 to 3 images to create a label group." s
  else if MAX_BATCH <=? length (groups s)
  then setError "Batch already has 100 labels." s
  else
    let typed := JS.trim (labelName s) in
    let finalName :=
      if String.eqb typed "" then suggestedLabelName sel else typed in
    let group :=
      LabelGroup.mk uuid finalName (beverageType s) (toGroupImage <$> sel) in
    setSelectedIds (λ _, ∅)
      (setLabelNameEdited false
         (setLabelName "" (setGroups (λ prev, prev ++ [group]) s))).

Definition single_group (bt : BeverageType) (uuid : string)
    (img : UploadedImage.t) : LabelGroup.t :=
  LabelGroup.mk uuid (baseLabelName (UploadedImage.filename img)) bt
    [toGroupImage img].

(** [uuids k] is the identifier drawn for the k-th image of the target. *)
Definition createSinglesFromPool (uuids : nat -> string) (s : AppState)
    : AppState :=
  let s := setError "" s in
  let pool := poolImages s in
  if length pool =? 0 then setError "No ungrouped images available." s
  else if MAX_BATCH <=? length (groups s)
  then setError "Batch already has 100 labels." s
  else
    let capacity := MAX_BATCH - length (groups s) in
    let target := take capacity pool in
    let newGroups :=
      imap (λ k img, single_group (beverageType s) (uuids k) img) target in
    setLabelNameEdited false
      (setLabelName ""
         (setSelectedIds (λ _, ∅) (setGroups (λ prev, prev ++ newGroups) s))).

(** *** The remove buttons and the form inputs *)

Definition removeGroup (id : string) (s : AppState) : AppState :=
  setGroups (filter (λ g, LabelGroup.label_id g ≠ id)) s.

Definition removeUngroupedImage (id : string) (s : AppState) : AppState :=
  setSelectedIds (λ prev, prev ∖ {[id]})
    (setUploaded (filter (λ img, UploadedImage.id img ≠ id)) s).

Definition removeResult (labelId : string) (s : AppState) : AppState :=
  setResults (filter (λ r, LabelResult.label_id r ≠ labelId)) s.

Definition editLabelName (v : string) (s : AppState) : AppState :=
  setLabelNameEdited true (setLabelName v s).

(** ** startVerification: the request and the reader loop *)

(** One outcome of [await reader.read()]: a chunk (already decoded to
    text), the transport-level end of the body, or a rejected read (the
    connection was reset). *)
Inductive ReadResult :=
| ReadChunk (text : string)
| ReadDone
| ReadRejected (message : string).

(** How the loop is left: by [break], by an exception, or not at all (the
    script of reads ran out while the loop was still waiting). *)
Inductive LoopExit :=
| Closed
| Threw (message : string)
| Awaiting.

Inductive VerifyResponse :=
| FetchRejected (message : string)
| NotOk (detail : option string)
| Streaming (script : list ReadResult).

Module RequestLabel.
Record image := mkImage {
  id : string; filename : string; storage_key : string }.
Record t := mk {
  label_id : string;
  label_name : string;
  beverage_type : BeverageType;
  images : list image }.
End RequestLabel.

Definition requestLabels (gs : list LabelGroup.t) : list RequestLabel.t :=
  (λ group,
     RequestLabel.mk (LabelGroup.label_id group) (LabelGroup.label_name group)
       (LabelGroup.beverage_type group)
       ((λ image, RequestLabel.mkImage (GroupImage.id image)
                    (GroupImage.filename image) (GroupImage.storage_key image))
          <$> LabelGroup.images group)) <$> gs.

Definition sse_separator : string := JS.nl +:+ JS.nl.

Section Verification.

(** [JSON.parse(payload) as BatchEvent]: the event a payload denotes, or
    the message of the exception it raises. *)
Variable JSON_parse : string -> string + BatchEvent.t.

Definition apply_event (event : BatchEvent.t) (s : AppState) : AppState :=
  setResults (λ prev, BatchEvent.result event :: prev)
    (setTotal (BatchEvent.total event)
       (setCompleted (BatchEvent.completed event)
          (setBatchId (BatchEvent.batch_id event) s))).

Definition data_line (block : string) : option string :=
  List.find (λ line, JS.startsWith line "data: ") (JS.split JS.nl block).

Definition payload_of (dataLine : string) : string :=
  JS.trim (JS.replace "data: " "" dataLine).

(** One iteration of the [for (const block of parts)] body: [inl] when it
    throws. *)
Definition process_block (block : string) (s : AppState) : string + AppState :=
  match data_line block with
  | None => inr s
  | Some dataLine =>
      let payload := payload_of dataLine in
      if String.eqb payload "done" then inr s
      else match JSON_parse payload with
           | inl message => inl message
           | inr event => inr (apply_event event s)
           end
  end.

(** The [for] loop; state written before an exception stays written. *)
Fixpoint process_blocks (parts : list string) (s : AppState)
    : option string * AppState :=
  match parts with
  | [] => (None, s)
  | block :: rest =>
      match process_block block s with
      | inl message => (Some message, s)
      | inr s' => process_blocks rest s'
      end
  end.

(** The [while (true)] loop over the reads the transport delivers. *)
Fixpoint read_loop (script : list ReadResult) (buffer : string)
    (s : AppState) : LoopExit * AppState :=
  match script with
  | [] => (Awaiting, s)
  | ReadDone :: _ => (Closed, s)
  | ReadRejected message :: _ => (Threw message, s)
  | ReadChunk text :: rest =>
      let '(last_piece, parts) :=
        JS.pop (JS.split sse_separator (buffer +:+ text)) in
      match process_blocks parts s with
      | (Some message, s') => (Threw message, s')
      | (None, s') => read_loop rest (default "" last_piece) s'
      end
  end.

Definition startVerification
    (server : list RequestLabel.t -> VerifyResponse) (s : AppState)
    : AppState :=
  let s :=
    setTotal (Z.of_nat (length (groups s)))
      (setCompleted 0 (setBatchId "" (setResults (λ _, []) (setError "" s)))) in
  if length (groups s) =? 0
  then setError "Create at least one label group first." s
  else
    let s := setBusy true s in
    match server (requestLabels (groups s)) with
    | FetchRejected message => setBusy false (setError message s)
    | NotOk detail =>
        setBusy false (setError (default "Verification failed" detail) s)
    | Streaming script =>
        match read_loop script "" s with
        | (Closed, s') => setBusy false s'
        | (Threw message, s') => setBusy false (setError message s')
        | (Awaiting, s') => s'
        end
    end.

(** ** The component as a transition system *)

Inductive Action :=
| ChooseFiles (fs : option (list File.t))
| ToggleSelection (id : string)
| UploadFiles (createObjectURL : File.t -> string)
    (server : UploadRequest -> UploadResponse)
| CreateGroup (uuid : string)
| CreateSinglesFromPool (uuids : nat -> string)
| EditLabelName (v : string)
| SelectBeverageType (v : BeverageType)
| StartVerification (server : list RequestLabel.t -> VerifyResponse)
| RemoveGroup (id : string)
| RemoveUngroupedImage (id : string)
| RemoveResult (labelId : string).

Definition handle (a : Action) (s : AppState) : AppState :=
  match a with
  | ChooseFiles fs => setFiles fs s
  | ToggleSelection id => toggleSelection id s
  | UploadFiles url server => uploadFiles url server s
  | CreateGroup uuid => createGroup uuid s
  | CreateSinglesFromPool uuids => createSinglesFromPool uuids s
  | EditLabelName v => editLabelName v s
  | SelectBeverageType v => setBeverageType v s
  | StartVerification server => startVerification server s
  | RemoveGroup id => removeGroup id s
  | RemoveUngroupedImage id => removeUngroupedImage id s
  | RemoveResult labelId => removeResult labelId s
  end.

(** A handler runs against the state of the latest render, the component
    renders, the effect fires. *)
Definition step (s : AppState) (a : Action) : AppState :=
  labelNameEffect (handle a s).

Definition run (acts : list Action) : AppState := foldl step initial acts.

(** What the results panel shows: each result with the group found under
    its [label_id]. *)
Definition rendered (gs : list LabelGroup.t) (rs : list LabelResult.t)
    : list (LabelResult.t * option LabelGroup.t) :=
  (λ result, (result, groupByLabelId gs !! LabelResult.label_id result)) <$> rs.

End Verification.

(** * The verification pipeline (server side)

    [api/validators/health_warning.py] and [api/services/verification.py]
    are not among the sources; what follows is written from the
    specification, with the enumerations and the warning text taken from the
    repository's own documents. *)

Module Pipeline.

(** ** The government warning rule *)

(** The statement of 27 CFR Part 16 as the requirements document prints
    it, on one line. *)
Definition canonical_warning : string :=
  "GOVERNMENT WARNING: (1) According to the Surgeon General, women should not drink alcoholic beverages during pregnancy because of the risk of birth defects. (2) Consumption of alcoholic beverages impairs your ability to drive a car or operate machinery, and may cause health problems.".

(** Modelled from the spec: "whitespace/line breaks" (the validator is
    missing from the sources): blank, tab and the line-break characters. *)
Definition is_space (c : ascii) : bool :=
  match c with
  | "009" | "010" | "011" | "012" | "013" | " " => true
  | _ => false
  end%char.

(** Modelled from the spec: the words of a text (the validator is missing
    from the sources), that is its maximal runs of non-blank characters, in
    order; [cur] is the run being read. *)
Fixpoint words_go (cur s : string) : list string :=
  match s with
  | "" => if String.eqb cur "" then [] else [cur]
  | String c s' =>
      if is_space c
      then (if String.eqb cur "" then words_go "" s'
            else cur :: words_go "" s')
      else words_go (cur +:+ String c "") s'
  end.

Definition words (s : string) : list string := words_go "" s.

(** Modelled from the spec: words joined by single spaces, the shape of a
    normalized text (the validator is missing from the sources). *)
Fixpoint unwords (ws : list string) : string :=
  match ws with
  | [] => ""
  | [w] => w
  | w :: ws' => w +:+ " " +:+ unwords ws'
  end.

(** Modelled from the spec: the health-warning validator is missing from
    the sources.  "Normalizes whitespace/line breaks": every run of blanks
    and line breaks becomes one space, leading and trailing ones go. *)
Definition normalize (text : string) : string := unwords (words text).

(** Modelled from the spec: the Government Warning Matcher, missing from
    the sources.  After normalization the text must equal the canonical
    string byte for byte; anything else is a [fail]. *)
Definition government_warning_matcher (text : string) : FieldStatus :=
  if String.eqb (normalize text) canonical_warning then fs_pass else fs_fail.

(** Modelled from the spec: the same rule as the architecture notes phrase
    it, a word-level comparison after normalization (the validator itself
    is missing from the sources). *)
Definition word_level_match (text : string) : bool :=
  bool_decide (words text = words canonical_warning).

(** Single-character edits of a text, used to exercise the matcher. *)
Fixpoint substitute (i : nat) (c : ascii) (s : string) : string :=
  match s, i with
  | "", _ => ""
  | String _ s', O => String c s'
  | String a s', S k => String a (substitute k c s')
  end.

Fixpoint delete_at (i : nat) (s : string) : string :=
  match s, i with
  | "", _ => ""
  | String _ s', O => s'
  | String a s', S k => String a (delete_at k s')
  end.

Fixpoint truncate (n : nat) (s : string) : string :=
  match s, n with
  | String a s', S k => String a (truncate k s')
  | _, _ => ""
  end.

(** ** Extraction gateway and state machine *)

(** Modelled from the spec: the failures of the extraction provider
    (section 4.2); the gateway adapter is missing from the sources. *)
Inductive ProviderError :=
| provider_timeout
| malformed_response
| authentication_failure
| rate_limited.

(** Modelled from the spec: the two prompt variants of the gateway
    contract (section 4.2). *)
Inductive PromptVariant := standard | degraded_image_specialized.

(** Modelled from the spec: one call [extract(images, promptVariant)],
    with the fields asked for. *)
Record GatewayCall := mkCall {
  prompt : PromptVariant;
  call_images : list string;
  requested : list string }.

(** Modelled from the spec: the provider is an external,
    non-deterministic collaborator (section 6), so its answer may depend
    on how many calls came before. *)
Definition Provider : Type :=
  nat -> GatewayCall -> ProviderError + gmap string string.

(** Modelled from the spec: the states of the Extraction State Machine
    (section 4.3), whose module is missing from the sources. [Pass2]
    remembers the values of pass 1 and the fields still missing. *)
Inductive MachineState :=
| NotStarted
| Pass1
| Pass2 (found : gmap string string) (missing : list string)
| Complete (found : gmap string string)
| Residual (found : gmap string string) (missing : list string)
| Error (e : ProviderError).

Section Machine.

Variable required : list string.
Variable images : list string.

(** Modelled from the spec: "value present vs. absent"; a field counts
    as missing when it has no value or an empty one. *)
Definition still_missing (found : gmap string string) : list string :=
  filter (λ f, default "" (found !! f) = "") required.

(** Modelled from the spec: a field is present when some pass gave it
    a value; a value of pass 1 stays, pass 2 fills what pass 1 left
    empty. *)
Definition fill (found second : gmap string string) : gmap string string :=
  union_with (λ v1 v2, Some (if String.eqb v1 "" then v2 else v1))
    found second.

(** Modelled from the spec: pass 1 asks the standard prompt for every
    required field over all images (rule 1 of section 4.3). *)
Definition first_call : GatewayCall := mkCall standard images required.

(** Modelled from the spec: the gateway call a state makes (rules 1 and
    3 of section 4.3); terminal states make none. *)
Definition gateway_request (st : MachineState) : option GatewayCall :=
  match st with
  | Pass1 => Some first_call
  | Pass2 _ missing => Some (mkCall degraded_image_specialized images missing)
  | _ => None
  end.

(** Modelled from the spec: the transition taken on the provider's
    answer (rules 2 to 5 of section 4.3). *)
Definition advance (st : MachineState)
    (reply : ProviderError + gmap string string) : MachineState :=
  match st, reply with
  | Pass1, inl e => Error e
  | Pass1, inr found =>
      match still_missing found with
      | [] => Complete found
      | missing => Pass2 found missing
      end
  | Pass2 _ _, inl e => Error e
  | Pass2 found _, inr second =>
      let all := fill found second in
      match still_missing all with
      | [] => Complete all
      | missing => Residual all missing
      end
  | st, _ => st
  end.

(** Modelled from the spec: the states the machine ends in. *)
Definition terminal (st : MachineState) : bool :=
  match st with
  | Complete _ | Residual _ _ | Error _ => true
  | _ => false
  end.

(** Modelled from the spec: the machine driven against a provider,
    keeping the list of calls it made. *)
Fixpoint drive (fuel : nat) (provider : Provider) (st : MachineState)
    (trace : list GatewayCall) : MachineState * list GatewayCall :=
  match fuel with
  | O => (st, trace)
  | S fuel' =>
      match st with
      | NotStarted => drive fuel' provider Pass1 trace
      | _ =>
          match gateway_request st with
          | None => (st, trace)
          | Some call =>
              drive fuel' provider
                (advance st (provider (length trace) call))
                (trace ++ [call])
          end
      end
  end.

(** Modelled from the spec: one run of the machine for a label group, from
    [NotStarted], with its outcome and its calls. *)
Definition extraction (provider : Provider)
    : MachineState * list GatewayCall :=
  drive 3 provider NotStarted [].

End Machine.

(** ** Resolver: overall status *)

(** Modelled from the spec: what rule evaluation (sections 4.1 and 4.4)
    hands to the status derivation: the field results, the fields that
    matched an escalate-classified pattern, and whether the beverage type
    stayed ambiguous. *)
Record Evaluation := mkEval {
  field_results : list FieldResult.t;
  escalate_classified : list string;
  type_ambiguous : bool }.

Definition has_status (st : FieldStatus) (f : FieldResult.t) : bool :=
  match FieldResult.status f, st with
  | fs_pass, fs_pass | fs_fail, fs_fail | fs_unreadable, fs_unreadable => true
  | _, _ => false
  end.

(** Modelled from the spec: the priority order of section 4.4 (the
    resolver is missing from the sources).  [None] stands for a rule
    evaluation that itself failed (ValidationRuleError). *)
Definition overall_status (outcome : MachineState)
    (evaluation : option Evaluation) : OverallStatus :=
  match outcome, evaluation with
  | Error _, _ => ERROR
  | _, None => ERROR
  | _, Some ev =>
      if existsb (has_status fs_fail) (field_results ev) then FAIL
      else if existsb (has_status fs_unreadable) (field_results ev)
              || negb (bool_decide (escalate_classified ev = []))
              || type_ambiguous ev
      then ESCALATE
      else PASS
  end.

(** Modelled from the spec: one work unit (section 4.5), state machine
    then resolver; [evaluate] stands for the rule tables. *)
Definition work_unit (required images : list string) (provider : Provider)
    (evaluate : MachineState -> option Evaluation)
    : OverallStatus * list GatewayCall :=
  let '(outcome, trace) := extraction required images provider in
  (overall_status outcome (evaluate outcome), trace).

End Pipeline.

(** * Sample data for the examples *)

Module Sample.

Definition dq : string := String "034"%char "".
Definition quoted (s : string) : string := dq +:+ s +:+ dq.
Definition member (k v : string) : string := quoted k +:+ ":" +:+ v.

Definition result : LabelResult.t :=
  LabelResult.mk "L1" "Old Tom" PASS BEER [] None 1.

Definition event : BatchEvent.t := BatchEvent.mk "b1" 1 1 result.

(** The JSON text of [event], as the server writes it after [data: ]. *)
Definition payload : string :=
  "{" +:+ member "batch_id" (quoted "b1") +:+ "," +:+
  member "completed" "1" +:+ "," +:+ member "total" "1" +:+ "," +:+
  member "result"
    ("{" +:+ member "label_id" (quoted "L1") +:+ "," +:+
     member "label_name" (quoted "Old Tom") +:+ "," +:+
     member "overall_status" (quoted "PASS") +:+ "," +:+
     member "beverage_type" (quoted "beer") +:+ "," +:+
     member "fields" "[]" +:+ "," +:+
     member "images_processed" "1" +:+ "}") +:+ "}".

(** [JSON.parse] restricted to the one payload the examples send. *)
Definition parse (text : string) : string + BatchEvent.t :=
  if String.eqb text payload then inr event
  else inl "Unexpected token in JSON".

Definition image (k : nat) : UploadedImage.t :=
  UploadedImage.mk ("img-" +:+ pretty k) ("label_" +:+ pretty k +:+ ".png")
    "image/png" ("key-" +:+ pretty k) 1024 ("blob:" +:+ pretty k).

Definition group (k : nat) : LabelGroup.t :=
  single_group BEER ("L" +:+ pretty k) (image k).

(** A console whose batch is full. *)
Definition full : AppState :=
  setGroups (λ _, group <$> seq 0 100) initial.

(** A full batch with one more upload, selected for a new group. *)
Definition full_selected : AppState :=
  setSelectedIds (λ _, {["img-100"]}) (setUploaded (λ _, [image 100]) full).

(** A console with three uploads, all three selected. *)
Definition three_selected : AppState :=
  setSelectedIds (λ _, {["img-0"; "img-1"; "img-2"]})
    (setUploaded (λ _, image <$> seq 0 4) initial).

Definition jpeg : File.t := File.mk "front.jpg" "image/jpeg".
Definition png : File.t := File.mk "back.png" "image/png".
Definition pdf : File.t := File.mk "scan.pdf" "application/pdf".

(** A console where a JPEG, a PDF and a PNG have been chosen. *)
Definition mixed_choice : AppState :=
  setFiles (Some [jpeg; pdf; png]) initial.

(** A console with one group, ready to verify. *)
Definition one_group : AppState := setGroups (λ _, [group 0]) initial.

(** The warning with its two clauses in the other order. *)
Definition clauses_swapped : string :=
  "GOVERNMENT WARNING: (2) Consumption of alcoholic beverages impairs your ability to drive a car or operate machinery, and may cause health problems. (1) According to the Surgeon General, women should not drink alcoholic beverages during pregnancy because of the risk of birth defects.".

(** The warning as the requirements document lays it out, on four lines. *)
Definition on_four_lines : string :=
  "GOVERNMENT WARNING: (1) According to the Surgeon General, women should not drink" +:+ JS.nl +:+
  "alcoholic beverages during pregnancy because of the risk of birth defects." +:+ JS.nl +:+
  "(2) Consumption of alcoholic beverages impairs your ability to drive a car or" +:+ JS.nl +:+
  "operate machinery, and may cause health problems.".

(** A provider that times out on its first call. *)
Definition failing_provider : Pipeline.Provider :=
  λ _ _, inl Pipeline.provider_timeout.

End Sample.

(** * Notions used in the statements *)

(** The console after the events of a stream, in arrival order. *)
Definition receive (events : list BatchEvent.t) (s : AppState) : AppState :=
  foldl (λ s event, apply_event event s) s events.

(** The fields a verification run never writes. *)
Definition same_batch (s s' : AppState) : Prop :=
  groups s' = groups s ∧ selectedIds s' = selectedIds s ∧
  uploaded s' = uploaded s.

Definition group_size_ok (g : LabelGroup.t) : Prop :=
  1 ≤ length (LabelGroup.images g) ≤ 3.

Record batch_ok (s : AppState) : Prop := mkBatchOk {
  ok_batch_size : length (groups s) ≤ MAX_BATCH;
  ok_group_sizes : Forall group_size_ok (groups s);
  ok_selection : size (selectedIds s) ≤ 3 }.

Definition jpeg_or_png (file : File.t) : Prop :=
  File.type file = "image/jpeg" ∨ File.type file = "image/png".

(** A text without blanks, and a word: a non-empty text without blanks. *)
Fixpoint blank_free (s : string) : bool :=
  match s with
  | "" => true
  | String c s' => negb (Pipeline.is_space c) && blank_free s'
  end.

Definition is_word (w : string) : Prop := w ≠ "" ∧ blank_free w = true.

Definition fails (text : string) : bool :=
  match Pipeline.government_warning_matcher text with
  | fs_fail => true
  | _ => false
  end.

(** * Notions used in the further properties *)

(** A text without line feed. *)
Fixpoint no_line_feed (s : string) : bool :=
  match s with
  | "" => true
  | String c s' => negb (Ascii.eqb c JS.LF) && no_line_feed s'
  end.

(** One event on the wire, as the reader expects it: a [data: ] line and
    the blank line that ends the block. *)
Definition sse_frame (payload : string) : string :=
  "data: " +:+ payload +:+ sse_separator.

(** The text of a list of pieces, one after the other. *)
Fixpoint joined (pieces : list string) : string :=
  match pieces with
  | [] => ""
  | piece :: rest => piece +:+ joined rest
  end.

(** The console at the moment [startVerification] sends its request: the
    previous run is cleared, the total is the size of the batch, [busy] is
    on. *)
Definition begun (s : AppState) : AppState :=
  setBusy true
    (setTotal (Z.of_nat (length (groups s)))
       (setCompleted 0
          (setBatchId "" (setResults (λ _, []) (setError "" s))))).

(** A payload the reader takes in as an event: one line, not the end
    marker, and text that [JSON.parse] turns into the event. *)
Definition well_framed (JSON_parse : string -> string + BatchEvent.t)
    (payload : string) (event : BatchEvent.t) : Prop :=
  no_line_feed payload = true ∧ JS.trim payload ≠ "done" ∧
  JSON_parse (JS.trim payload) = inr event.

(** A text free of the characters that [baseLabelName] turns into spaces. *)
Fixpoint sep_free (s : string) : bool :=
  match s with
  | "" => true
  | String c s' => negb (is_sep c) && sep_free s'
  end.

(** A label name as the console produces them: not empty, and with no
    white space at either end. *)
Definition proper_name (name : string) : Prop :=
  name ≠ "" ∧ JS.trim name = name.

(** The name [createGroup] gives the new group: the typed name without its
    outer white space, or the suggestion when that is empty. *)
Definition finalName (s : AppState) : string :=
  let typed := JS.trim (labelName s) in
  if String.eqb typed "" then suggestedLabelName (selectedImages s) else typed.

(** The group [createGroup] adds when it accepts the selection. *)
Definition new_group (uuid : string) (s : AppState) : LabelGroup.t :=
  LabelGroup.mk uuid (finalName s) (beverageType s)
    (toGroupImage <$> selectedImages s).

(** The images [createSinglesFromPool] turns into groups. *)
Definition singles_target (s : AppState) : list UploadedImage.t :=
  take (MAX_BATCH - length (groups s)) (poolImages s).

Definition uploaded_ids (imgs : list UploadedImage.t) : gset string :=
  list_to_set (UploadedImage.id <$> imgs).

(** An item of the upload response with the preview URL minted for the
    chosen file at the same position. *)
Definition with_preview (createObjectURL : File.t -> string)
    (item : UploadedImage.t) (file : File.t) : UploadedImage.t :=
  UploadedImage.mk (UploadedImage.id item) (UploadedImage.filename item)
    (UploadedImage.content_type item) (UploadedImage.storage_key item)
    (UploadedImage.size_bytes item) (createObjectURL file).

(** A short session: one PNG chosen and uploaded, its image selected. *)
Definition sample_session : list Action :=
  [ChooseFiles (Some [Sample.png]);
   UploadFiles File.name (λ _, UploadOk [Sample.image 0]);
   ToggleSelection "img-0"].

(** A response body in three chunks that cut through the blocks: one
    event, then the end marker. *)
Definition sample_chunks : list string :=
  ["data: "; Sample.payload +:+ JS.nl; JS.nl +:+ sse_frame "done"].

(** A response body whose second block does not parse. *)
Definition sample_broken_body : string :=
  sse_frame Sample.payload +:+ sse_frame "{oops" +:+ sse_frame Sample.payload.

(** * Sanity checks of the primitives *)

Example split_on_blank_line :
  JS.split sse_separator
    ("data: a" +:+ JS.nl +:+ JS.nl +:+ "data: b" +:+ JS.nl +:+ JS.nl +:+ "dat")
  = ["data: a"; "data: b"; "dat"].
Proof. reflexivity. Qed.

Example split_of_empty : JS.split sse_separator "" = [""].
Proof. reflexivity. Qed.

Example data_line_after_event_line :
  data_line ("event: result" +:+ JS.nl +:+ "data: x") = Some "data: x".
Proof. reflexivity. Qed.

Example trim_both_ends : JS.trim ("  done " +:+ JS.nl) = "done".
Proof. reflexivity. Qed.

Example baseLabelName_samples :
  baseLabelName "old_tom--front.v2.png" = "old tom front.v2" ∧
  baseLabelName ".png" = "Untitled Label" ∧
  baseLabelName "a.b." = "a.b.".
Proof. repeat split. Qed.

Example suggestedLabelName_three :
  suggestedLabelName (Sample.image <$> seq 0 3) = "label 0 +2 image(s)".
Proof. reflexivity. Qed.

(** A line break in place of a blank is absorbed by normalization: the
    blank-for-blank exception of the substitution property is needed. *)
Example line_break_for_blank_passes :
  String.get 19 Pipeline.canonical_warning = Some " "%char ∧
  Pipeline.government_warning_matcher
    (Pipeline.substitute 19 JS.LF Pipeline.canonical_warning) = fs_pass.
Proof. split; vm_compute; reflexivity. Qed.

Example lower_case_heading_fails :
  Pipeline.government_warning_matcher
    (Pipeline.substitute 0 "g" Pipeline.canonical_warning) = fs_fail.
Proof. vm_compute. reflexivity. Qed.

(** * Properties of the batch console *)

(** ** Selection *)

Lemma toggle_size (id : string) (s : gset string) :
  size s ≤ 3 → size (toggle id s) ≤ 3.
Proof.
  intros Hs. unfold toggle. repeat case_bool_decide; [| done |].
  - etrans; [apply subseteq_size|exact Hs]. set_solver.
  - rewrite size_union; [|set_solver]. rewrite size_singleton. lia.
Qed.

Lemma toggle_twice (id : string) (s : gset string) :
  size s ≤ 3 → toggle id (toggle id s) = s.
Proof.
  intros Hs. unfold toggle at 2. repeat case_bool_decide.
  - assert (size (s ∖ {[id]}) < size s).
    { apply subset_size. set_solver. }
    unfold toggle. rewrite bool_decide_eq_false_2; [|set_solver].
    rewrite bool_decide_eq_false_2; [|lia].
    apply set_eq. intros x. destruct (decide (x = id)); set_solver.
  - unfold toggle. rewrite bool_decide_eq_false_2; [|done].
    by rewrite bool_decide_eq_true_2.
  - unfold toggle. rewrite bool_decide_eq_true_2; [|set_solver]. set_solver.
Qed.

(** The bound on the set is needed: from four ids, removing one and
    toggling it again does not bring it back. *)
Example toggle_twice_needs_bound :
  toggle "a" (toggle "a" {["a"; "b"; "c"; "d"]}) ≠ {["a"; "b"; "c"; "d"]}.
Proof.
  intros Heq. assert (Ha : "a" ∈ toggle "a" (toggle "a" {["a"; "b"; "c"; "d"]})).
  { rewrite Heq. set_solver. }
  revert Ha. vm_compute. discriminate.
Qed.

(** ** What the reader loop can touch *)

Section ReaderFrame.

Variable JSON_parse : string -> string + BatchEvent.t.

Lemma process_block_frame block s s' :
  process_block JSON_parse block s = inr s' → same_batch s s'.
Proof.
  unfold process_block. destruct (data_line block); [|by intros [= <-]].
  destruct (String.eqb _ _); [by intros [= <-]|].
  destruct (JSON_parse _); [done|]. by intros [= <-].
Qed.

Lemma process_blocks_frame parts s :
  same_batch s (process_blocks JSON_parse parts s).2.
Proof.
  revert s. induction parts as [|block rest IH]; intros s; [done|].
  simpl. destruct (process_block _ block s) as [m|s'] eqn:Hb; [done|].
  apply process_block_frame in Hb as (?&?&?).
  destruct (IH s') as (?&?&?). repeat split; congruence.
Qed.

Lemma read_loop_chunk text rest buffer s :
  read_loop JSON_parse (ReadChunk text :: rest) buffer s =
  let pieces := JS.split sse_separator (buffer +:+ text) in
  match process_blocks JSON_parse (removelast pieces) s with
  | (Some message, s') => (Threw message, s')
  | (None, s') => read_loop JSON_parse rest (default "" (last pieces)) s'
  end.
Proof. reflexivity. Qed.

Lemma read_loop_frame script buffer s :
  same_batch s (read_loop JSON_parse script buffer s).2.
Proof.
  revert buffer s.
  induction script as [|[text| |m] rest IH]; intros buffer s; try done.
  rewrite read_loop_chunk. cbv zeta.
  set (parts := removelast _). set (last_piece := last _).
  pose proof (process_blocks_frame parts s) as (?&?&?).
  destruct (process_blocks _ parts s) as [[m|] s']; simpl in *; [done|].
  destruct (IH (default "" last_piece) s') as (?&?&?).
  repeat split; congruence.
Qed.

Lemma startVerification_frame server s :
  same_batch s (startVerification JSON_parse server s).
Proof.
  unfold startVerification. cbn [groups setTotal setCompleted setBatchId setResults setError].
  destruct (_ =? 0); [done|]. destruct (server _) as [m|d|script]; try done.
  set (s0 := setBusy true _).
  pose proof (read_loop_frame script "" s0) as Hf.
  destruct (read_loop _ script "" s0) as [[| m |] s']; apply Hf.
Qed.

End ReaderFrame.

Lemma uploadFiles_frame url server s :
  groups (uploadFiles url server s) = groups s ∧
  selectedIds (uploadFiles url server s) = selectedIds s.
Proof.
  unfold uploadFiles, uploadFiles_begin. cbn [files setError].
  destruct (files s) as [[|f fs]|]; try done.
  destruct (fill_form _ _); [done|]. unfold uploadFiles_resume.
  destruct (server _); try done. by destruct (merge_previews _ _ _).
Qed.

(** ** The batch invariant *)

Lemma batch_ok_frame s s' :
  groups s' = groups s → selectedIds s' = selectedIds s →
  batch_ok s → batch_ok s'.
Proof. intros Hg Hs [???]. split; by rewrite ?Hg, ?Hs. Qed.

Lemma initial_ok : batch_ok initial.
Proof.
  split; [unfold MAX_BATCH; simpl; lia | apply Forall_nil_2 |].
  change (selectedIds initial) with (∅ : gset string).
  rewrite size_empty. lia.
Qed.

Lemma createGroup_cases uuid s :
  let s0 := setError "" s in
  let sel := selectedImages s in
  (¬ (1 ≤ length sel ≤ 3) ∧
   createGroup uuid s =
     setError "Select 1 to 3 images to create a label group." s0) ∨
  (1 ≤ length sel ≤ 3 ∧ MAX_BATCH ≤ length (groups s) ∧
   createGroup uuid s = setError "Batch already has 100 labels." s0) ∨
  (1 ≤ length sel ≤ 3 ∧ length (groups s) < MAX_BATCH ∧
   ∃ name,
     groups (createGroup uuid s) =
       groups s ++ [LabelGroup.mk uuid name (beverageType s) (toGroupImage <$> sel)] ∧
     selectedIds (createGroup uuid s) = ∅).
Proof.
  intros s0 sel. unfold createGroup. fold s0.
  change (selectedImages s0) with sel. change (groups s0) with (groups s).
  destruct (length sel <? 1) eqn:H1; [left; split; [|done]|].
  { apply Nat.ltb_lt in H1. lia. }
  destruct (3 <? length sel) eqn:H3; [left; split; [|done]|].
  { apply Nat.ltb_lt in H3. lia. }
  apply Nat.ltb_ge in H1, H3. right. cbn [orb].
  destruct (MAX_BATCH <=? length (groups s)) eqn:Hm.
  - apply Nat.leb_le in Hm. left. split; [lia|]. by split.
  - apply Nat.leb_gt in Hm. right. split; [lia|]. split; [lia|].
    eexists. split; reflexivity.
 Qed.

Lemma createSinglesFromPool_groups uuids s :
  ∃ newGroups,
    groups (createSinglesFromPool uuids s) = groups s ++ newGroups ∧
    length newGroups = min (length (poolImages s)) (MAX_BATCH - length (groups s)) ∧
    Forall (λ g, length (LabelGroup.images g) = 1) newGroups ∧
    (newGroups = [] → selectedIds (createSinglesFromPool uuids s) = selectedIds s) ∧
    (newGroups ≠ [] → selectedIds (createSinglesFromPool uuids s) = ∅).
Proof.
  unfold createSinglesFromPool.
  change (poolImages (setError "" s)) with (poolImages s).
  change (groups (setError "" s)) with (groups s).
  change (beverageType (setError "" s)) with (beverageType s).
  destruct (length (poolImages s) =? 0) eqn:Hp.
  { apply Nat.eqb_eq in Hp. exists []. rewrite Hp, app_nil_r. by repeat split. }
  apply Nat.eqb_neq in Hp.
  destruct (MAX_BATCH <=? length (groups s)) eqn:Hm.
  { apply Nat.leb_le in Hm. exists []. rewrite app_nil_r.
    repeat split; try done. simpl. lia. }
  apply Nat.leb_gt in Hm. eexists. split; [reflexivity|].
  rewrite length_imap, length_take. split; [lia|]. split; [|split].
  - apply Forall_lookup. intros i g. rewrite list_lookup_imap.
    destruct (take _ _ !! i); by intros [= <-].
  - intros Hnil. apply (f_equal length) in Hnil.
    rewrite length_imap, length_take in Hnil. simpl in Hnil. lia.
  - done.
Qed.

Section Invariant.

Variable JSON_parse : string -> string + BatchEvent.t.

Lemma handle_ok a s : batch_ok s → batch_ok (handle JSON_parse a s).
Proof.
  intros Hok. destruct a; simpl; try by (eapply batch_ok_frame; [..|exact Hok]).
  - destruct Hok. split; try done. by apply toggle_size.
  - destruct (uploadFiles_frame createObjectURL server s).
    by eapply batch_ok_frame.
  - destruct (createGroup_cases uuid s) as [[_ ->]|[(_&_& ->)|(Hsel&Hlt&name&Hg&Hs)]];
      [by (eapply batch_ok_frame; [..|exact Hok])..|].
    destruct Hok. split.
    + rewrite Hg, length_app. simpl. lia.
    + rewrite Hg. apply Forall_app. split; [done|].
      constructor; [|constructor]. unfold group_size_ok. simpl.
      by rewrite length_fmap.
    + rewrite Hs, size_empty. lia.
  - destruct (createSinglesFromPool_groups uuids s)
      as (new & Hg & Hlen & Hone & Hnil & Hcons).
    destruct Hok. split.
    + rewrite Hg, length_app. lia.
    + rewrite Hg. apply Forall_app. split; [done|].
      eapply Forall_impl; [exact Hone|]. unfold group_size_ok.
      intros g Hg1. simpl in Hg1. rewrite Hg1. lia.
    + destruct new; [by rewrite Hnil|]. rewrite Hcons, ?size_empty; [lia|done].
  - destruct (startVerification_frame JSON_parse server s) as (?&?&?).
    by eapply batch_ok_frame.
  - destruct Hok. split; simpl; try done.
    + etrans; [apply length_filter|done].
    + apply Forall_forall. intros g [_ Hin]%list_elem_of_filter.
      by eapply Forall_forall in Hin.
  - destruct Hok. split; simpl; try done.
    etrans; [apply subseteq_size|done]. set_solver.
Qed.

Lemma step_ok s a : batch_ok s → batch_ok (step JSON_parse s a).
Proof.
  intros Hok. unfold step, labelNameEffect.
  destruct (labelNameEdited _); [by apply handle_ok|].
  eapply batch_ok_frame; [..|by apply handle_ok]; done.
Qed.

Lemma run_ok acts : batch_ok (run JSON_parse acts).
Proof.
  unfold run. induction acts as [|a acts IH] using rev_ind.
  - apply initial_ok.
  - rewrite foldl_snoc. by apply step_ok.
Qed.

End Invariant.

Lemma setError_setError m m' s : setError m (setError m' s) = setError m s.
Proof. reflexivity. Qed.

Lemma toggle_size_max (id : string) (s : gset string) :
  size (toggle id s) ≤ max 3 (size s).
Proof.
  unfold toggle. repeat case_bool_decide; [| lia |].
  - etrans; [apply subseteq_size|apply Nat.le_max_r]. set_solver.
  - rewrite size_union; [|set_solver]. rewrite size_singleton. lia.
Qed.

(** ** The batch and the selection *)

(** C9. On a selection of at most three ids, toggling the same id twice
    gives the selection back (a fourth id on a full selection is refused
    both times), and one toggle never yields more than three ids. *)
Theorem toggleSelection_involution (id : string) (s : AppState) :
  size (selectedIds s) ≤ 3 →
  toggleSelection id (toggleSelection id s) = s ∧
  size (selectedIds (toggleSelection id s)) ≤ 3.
Proof.
  intros Hs. split; [|by apply toggle_size].
  destruct s as [f u sel g n e b r bi c t bu er]. unfold toggleSelection, setSelectedIds.
  simpl in *. f_equal. by apply toggle_twice.
Qed.

Lemma toggleSelection_involution_witness :
  size (selectedIds Sample.three_selected) ≤ 3 ∧
  toggleSelection "img-3" (toggleSelection "img-3" Sample.three_selected)
    = Sample.three_selected ∧
  toggleSelection "img-1" (toggleSelection "img-1" Sample.three_selected)
    = Sample.three_selected.
Proof.
  assert (Hs : size (selectedIds Sample.three_selected) ≤ 3) by (vm_compute; lia).
  split; [exact Hs|]. split.
  - apply (toggleSelection_involution "img-3" Sample.three_selected Hs).
  - apply (toggleSelection_involution "img-1" Sample.three_selected Hs).
Defined.

(** C5. The batch never holds more than 100 groups, whatever the user
    does; [createGroup] on a full batch changes nothing but the error
    message, which is the batch-full message whenever the selection itself
    is acceptable; [createSinglesFromPool] appends exactly as many
    single-image groups as the pool offers and the remaining capacity
    admits. *)
Theorem batch_capacity (JSON_parse : string -> string + BatchEvent.t) :
  (∀ acts, length (groups (run JSON_parse acts)) ≤ 100) ∧
  (∀ uuid s, 100 ≤ length (groups s) →
     ∃ message, message ≠ "" ∧ createGroup uuid s = setError message s ∧
       (1 ≤ length (selectedImages s) ≤ 3 →
        message = "Batch already has 100 labels.")) ∧
  (∀ uuids s, ∃ newGroups,
     groups (createSinglesFromPool uuids s) = groups s ++ newGroups ∧
     length newGroups =
       min (length (poolImages s)) (100 - length (groups s)) ∧
     Forall (λ g, length (LabelGroup.images g) = 1) newGroups).
Proof.
  split; [|split].
  - intros acts. apply (ok_batch_size _ (run_ok JSON_parse acts)).
  - intros uuid s Hfull.
    destruct (createGroup_cases uuid s)
      as [[Hsel ->]|[(Hsel&_& ->)|(_&Hlt&_)]].
    + eexists. split; [|split; [apply setError_setError|]]; [done|].
      intros. by destruct Hsel.
    + eexists. split; [|split; [apply setError_setError|]]; done.
    + unfold MAX_BATCH in Hlt. lia.
  - intros uuids s.
    destruct (createSinglesFromPool_groups uuids s) as (new&?&?&?&_).
    by exists new.
Qed.

Lemma batch_capacity_witness :
  100 ≤ length (groups Sample.full_selected) ∧
  1 ≤ length (selectedImages Sample.full_selected) ≤ 3 ∧
  createGroup "L-new" Sample.full_selected =
    setError "Batch already has 100 labels." Sample.full_selected.
Proof.
  assert (Hfull : 100 ≤ length (groups Sample.full_selected))
    by (vm_compute; lia).
  assert (Hsel : 1 ≤ length (selectedImages Sample.full_selected) ≤ 3)
    by (vm_compute; lia).
  split; [exact Hfull|]. split; [exact Hsel|].
  destruct (batch_capacity Sample.parse) as (_ & Hcreate & _).
  destruct (Hcreate "L-new" Sample.full_selected Hfull)
    as (message & _ & Hstate & Hmessage).
  rewrite Hstate. f_equal. exact (Hmessage Hsel).
Defined.

(** C6. Every group of the batch has one to three images: this holds in
    every reachable state; [createGroup] turns down a selection of none or
    of more than three images and leaves all but the error message as it
    was, and any group it adds has one to three images;
    [toggleSelection] never takes the selection past three ids; every
    group [createSinglesFromPool] adds has exactly one image. *)
Theorem group_image_bounds (JSON_parse : string -> string + BatchEvent.t) :
  (∀ acts,
     Forall (λ g, 1 ≤ length (LabelGroup.images g) ≤ 3)
       (groups (run JSON_parse acts))) ∧
  (∀ uuid s, ¬ (1 ≤ length (selectedImages s) ≤ 3) →
     createGroup uuid s =
       setError "Select 1 to 3 images to create a label group." s) ∧
  (∀ uuid s g, g ∈ groups (createGroup uuid s) →
     g ∈ groups s ∨ 1 ≤ length (LabelGroup.images g) ≤ 3) ∧
  (∀ id s,
     size (selectedIds (toggleSelection id s)) ≤ max 3 (size (selectedIds s))) ∧
  (∀ acts, size (selectedIds (run JSON_parse acts)) ≤ 3) ∧
  (∀ uuids s g, g ∈ groups (createSinglesFromPool uuids s) →
     g ∈ groups s ∨ length (LabelGroup.images g) = 1).
Proof.
  split; [|split; [|split; [|split; [|split]]]].
  - intros acts. apply (ok_group_sizes _ (run_ok JSON_parse acts)).
  - intros uuid s Hsel.
    by destruct (createGroup_cases uuid s) as [[_ ->]|[(?&_)|(?&_)]].
  - intros uuid s g.
    destruct (createGroup_cases uuid s)
      as [[_ ->]|[(_&_& ->)|(Hsel&_&name&->&_)]]; [by left..|].
    intros [Hin|Hnew%list_elem_of_singleton]%elem_of_app; [by left|right].
    subst g. simpl. by rewrite length_fmap.
  - intros id s. apply toggle_size_max.
  - intros acts. apply (ok_selection _ (run_ok JSON_parse acts)).
  - intros uuids s g.
    destruct (createSinglesFromPool_groups uuids s) as (new&->&_&Hone&_).
    intros [Hin|Hnew]%elem_of_app; [by left|right].
    by eapply Forall_forall in Hone.
Qed.

Lemma group_image_bounds_witness :
  ¬ (1 ≤ length (selectedImages initial) ≤ 3) ∧
  createGroup "L-new" initial =
    setError "Select 1 to 3 images to create a label group." initial.
Proof.
  assert (Hnone : ¬ (1 ≤ length (selectedImages initial) ≤ 3)).
  { vm_compute. lia. }
  split; [exact Hnone|].
  destruct (group_image_bounds Sample.parse) as (_ & Hreject & _).
  exact (Hreject "L-new" initial Hnone).
Defined.

(** ** Upload *)

Lemma accepted_type_spec file : accepted_type file = true ↔ jpeg_or_png file.
Proof.
  unfold accepted_type, jpeg_or_png. rewrite bool_decide_eq_true.
  rewrite !elem_of_cons, elem_of_nil. tauto.
Qed.

Lemma fill_form_accepts fs form :
  Forall jpeg_or_png fs → fill_form fs form = inr (form ++ fs).
Proof.
  intros Hall. revert form.
  induction Hall as [|f fs Hf _ IH]; intros form; simpl.
  - by rewrite app_nil_r.
  - apply accepted_type_spec in Hf. rewrite Hf, IH. by rewrite <-app_assoc.
Qed.

Lemma fill_form_rejects pre f post form :
  Forall jpeg_or_png pre → ¬ jpeg_or_png f →
  fill_form (pre ++ f :: post) form = inl (unsupported_message f).
Proof.
  intros Hpre Hf. revert form.
  induction Hpre as [|g pre Hg _ IH]; intros form; simpl.
  - destruct (accepted_type f) eqn:Ha; [|done].
    by apply accepted_type_spec in Ha.
  - apply accepted_type_spec in Hg. by rewrite Hg.
Qed.

Lemma fill_form_inr fs form form' :
  fill_form fs form = inr form' → Forall jpeg_or_png fs.
Proof.
  revert form. induction fs as [|f fs IH]; intros form; simpl; [constructor|].
  destruct (accepted_type f) eqn:Ha; [|done].
  intros Hrest. constructor; [by apply accepted_type_spec|by eapply IH].
Qed.

(** C10. [uploadFiles] sends the upload request exactly when at least one
    file is chosen and every chosen file is of type image/jpeg or
    image/png, and then the form holds the chosen files in order.  With no
    file chosen, or with a file of another type, no request is sent, the
    state changes in its error message only (so the uploaded images stay),
    and the message is the choose-a-file text, respectively names the
    first file of another type. *)
Theorem uploadFiles_jpeg_png_only (s : AppState) :
  (∀ req, (uploadFiles_begin s).2 = Some req ↔
     ∃ fs, files s = Some fs ∧ fs ≠ [] ∧ Forall jpeg_or_png fs ∧
           req = mkUpload fs fs) ∧
  (files s = None ∨ files s = Some [] →
     (uploadFiles_begin s).2 = None ∧
     ∀ url server,
       uploadFiles url server s =
         setError "Choose at least one JPEG or PNG image." s) ∧
  (∀ pre f post,
     files s = Some (pre ++ f :: post) →
     Forall jpeg_or_png pre → ¬ jpeg_or_png f →
     (uploadFiles_begin s).2 = None ∧
     ∀ url server,
       uploadFiles url server s =
         setError ("Unsupported file type: " +:+ File.name f +:+
                   ". Only JPEG/PNG allowed.") s ∧
       uploaded (uploadFiles url server s) = uploaded s).
Proof.
  split; [|split].
  - intros req. unfold uploadFiles_begin. cbn [files setError].
    destruct (files s) as [[|f fs]|] eqn:Hfiles.
    + simpl. split; [intros [=]|]. intros (fs&Heq&Hne&_). by injection Heq as <-.
    + destruct (fill_form (f :: fs) []) as [m|form] eqn:Hform; simpl.
      * split; [intros [=]|]. intros (fs'&Heq&_&Hall&_). injection Heq as <-.
        by rewrite (fill_form_accepts _ [] Hall) in Hform.
      * pose proof (fill_form_inr _ _ _ Hform) as Hall.
        rewrite (fill_form_accepts _ [] Hall) in Hform. injection Hform as <-.
        split.
        -- intros [= <-]. by exists (f :: fs).
        -- intros (fs'&Heq&_&_&->). by injection Heq as <-.
    + simpl. split; [intros [=]|]. by intros (fs&?&_).
  - intros Hnone. unfold uploadFiles, uploadFiles_begin. cbn [files setError].
    by destruct Hnone as [-> | ->].
  - intros pre f post Hfiles Hpre Hf.
    unfold uploadFiles, uploadFiles_begin. cbn [files setError].
    rewrite Hfiles, (fill_form_rejects pre f post [] Hpre Hf).
    by destruct pre.
Qed.

Lemma uploadFiles_jpeg_png_only_witness :
  ¬ jpeg_or_png Sample.pdf ∧
  (uploadFiles_begin Sample.mixed_choice).2 = None ∧
  ∀ url server,
    uploadFiles url server Sample.mixed_choice =
      setError "Unsupported file type: scan.pdf. Only JPEG/PNG allowed."
        Sample.mixed_choice ∧
    uploaded (uploadFiles url server Sample.mixed_choice) =
      uploaded Sample.mixed_choice.
Proof.
  assert (Hpdf : ¬ jpeg_or_png Sample.pdf) by (intros [H|H]; discriminate H).
  assert (Hjpeg : Forall jpeg_or_png [Sample.jpeg]).
  { constructor; [by left|constructor]. }
  split; [exact Hpdf|].
  destruct (uploadFiles_jpeg_png_only Sample.mixed_choice) as (_ & _ & Hreject).
  exact (Hreject [Sample.jpeg] Sample.pdf [Sample.png] eq_refl Hjpeg Hpdf).
Defined.

(** ** The event stream *)

Section Stream.

Variable JSON_parse : string -> string + BatchEvent.t.

Lemma process_blocks_app before after s :
  process_blocks JSON_parse (before ++ after) s =
  match process_blocks JSON_parse before s with
  | (Some message, s') => (Some message, s')
  | (None, s') => process_blocks JSON_parse after s'
  end.
Proof.
  revert s. induction before as [|block before IH]; intros s; [done|].
  simpl. destruct (process_block _ block s); [done|apply IH].
Qed.

Lemma done_block_skipped block dataLine s :
  data_line block = Some dataLine → payload_of dataLine = "done" →
  process_block JSON_parse block s = inr s.
Proof. intros Hline Hdone. unfold process_block. by rewrite Hline, Hdone. Qed.

Lemma read_loop_closed script buffer s :
  (read_loop JSON_parse script buffer s).1 = Closed →
  ∃ chunks rest, script = (ReadChunk <$> chunks) ++ ReadDone :: rest.
Proof.
  revert buffer s.
  induction script as [|[text| |m] script IH]; intros buffer s; try done.
  - rewrite read_loop_chunk. cbv zeta.
    destruct (process_blocks _ _ s) as [[m|] s']; [done|].
    intros (chunks & rest & ->)%IH. by exists (text :: chunks), rest.
  - intros _. by exists [], script.
Qed.

Lemma read_loop_waits chunks buffer s :
  (read_loop JSON_parse (ReadChunk <$> chunks) buffer s).1 ≠ Closed.
Proof.
  intros (chunks' & rest & Heq)%read_loop_closed.
  assert (Hin : ReadDone ∈ ReadChunk <$> chunks).
  { rewrite Heq. apply elem_of_app. right. apply list_elem_of_here. }
  by apply list_elem_of_fmap in Hin as (text & ? & _).
Qed.

End Stream.

Section StreamEvents.

Variable JSON_parse : string -> string + BatchEvent.t.

Lemma receive_app events events' s :
  receive (events ++ events') s = receive events' (receive events s).
Proof. apply foldl_app. Qed.

Lemma process_block_receive block s s' :
  process_block JSON_parse block s = inr s' → ∃ events, s' = receive events s.
Proof.
  unfold process_block. destruct (data_line block); [|intros [= <-]; by exists []].
  destruct (String.eqb _ _); [intros [= <-]; by exists []|].
  destruct (JSON_parse _) as [|event]; [done|]. intros [= <-]. by exists [event].
Qed.

Lemma process_blocks_receive parts s :
  ∃ events, (process_blocks JSON_parse parts s).2 = receive events s.
Proof.
  revert s. induction parts as [|block parts IH]; intros s; [by exists []|].
  simpl. destruct (process_block _ block s) as [m|s'] eqn:Hb; [by exists []|].
  apply process_block_receive in Hb as (ev1 & ->).
  destruct (IH (receive ev1 s)) as (ev2 & ->).
  exists (ev1 ++ ev2). by rewrite receive_app.
Qed.

(** Whatever the transport delivers, the loop leaves the console as a
    sequence of received events would. *)
Lemma read_loop_receive script buffer s :
  ∃ events, (read_loop JSON_parse script buffer s).2 = receive events s.
Proof.
  revert buffer s.
  induction script as [|[text| |m] script IH]; intros buffer s;
    try by exists [].
  rewrite read_loop_chunk. cbv zeta.
  destruct (process_blocks_receive (removelast (JS.split sse_separator (buffer +:+ text))) s)
    as (ev1 & Hev1).
  destruct (process_blocks _ _ s) as [[m|] s']; simpl in Hev1; subst s';
    [by exists ev1|].
  destruct (IH (default "" (last (JS.split sse_separator (buffer +:+ text))))
              (receive ev1 s)) as (ev2 & ->).
  exists (ev1 ++ ev2). by rewrite receive_app.
Qed.

End StreamEvents.

Lemma receive_results events s :
  results (receive events s) =
  reverse (BatchEvent.result <$> events) ++ results s.
Proof.
  revert s. induction events as [|event events IH] using rev_ind; intros s.
  - done.
  - rewrite receive_app, fmap_app, reverse_app. simpl. by rewrite IH.
Qed.

Lemma groupByLabelId_snoc gs g :
  groupByLabelId (gs ++ [g]) = <[LabelGroup.label_id g := g]> (groupByLabelId gs).
Proof. unfold groupByLabelId. by rewrite foldl_snoc. Qed.

(** The index answers with the last group carrying the id. *)
Lemma groupByLabelId_last gs id :
  groupByLabelId gs !! id = last (filter (λ g, LabelGroup.label_id g = id) gs).
Proof.
  induction gs as [|g gs IH] using rev_ind.
  - unfold groupByLabelId. simpl. by rewrite lookup_empty.
  - rewrite groupByLabelId_snoc, filter_app.
    destruct (decide (LabelGroup.label_id g = id)) as [Heq|Hne].
    + rewrite Heq, lookup_insert_eq, filter_cons_True, filter_nil by done.
      by rewrite last_snoc.
    + rewrite lookup_insert_ne, filter_cons_False, filter_nil, app_nil_r by done.
      exact IH.
Qed.

Lemma groupByLabelId_sound gs id g :
  groupByLabelId gs !! id = Some g → g ∈ gs ∧ LabelGroup.label_id g = id.
Proof.
  rewrite groupByLabelId_last. intros Hlast.
  assert (Hin : g ∈ filter (λ g, LabelGroup.label_id g = id) gs).
  { apply last_Some in Hlast as (l' & ->). apply elem_of_app. right.
    apply list_elem_of_here. }
  apply list_elem_of_filter in Hin. tauto.
Qed.

Lemma groupByLabelId_complete gs g :
  NoDup (LabelGroup.label_id <$> gs) → g ∈ gs →
  groupByLabelId gs !! LabelGroup.label_id g = Some g.
Proof.
  induction gs as [|g' gs IH] using rev_ind; intros Hnd Hin.
  - by apply elem_of_nil in Hin.
  - rewrite groupByLabelId_snoc. rewrite fmap_app in Hnd.
    apply NoDup_app in Hnd as (Hnd & Hdisj & _).
    apply elem_of_app in Hin as [Hin|Hin].
    + rewrite lookup_insert_ne; [by apply IH|].
      intros Heq. apply (Hdisj (LabelGroup.label_id g)).
      * apply list_elem_of_fmap. eauto.
      * rewrite <-Heq. apply list_elem_of_here.
    + apply list_elem_of_singleton in Hin as ->. apply lookup_insert_eq.
Qed.

Lemma receive_flags events s :
  busy (receive events s) = busy s ∧ error (receive events s) = error s.
Proof.
  revert s. induction events as [|event events IH]; intros s; [done|].
  apply (IH (apply_event event s)).
Qed.

(** How [startVerification] ends, by the way the loop is left. *)
Lemma startVerification_exit JSON_parse server script s :
  groups s ≠ [] → server (requestLabels (groups s)) = Streaming script →
  let s0 :=
    setBusy true
      (setTotal (Z.of_nat (length (groups s)))
         (setCompleted 0
            (setBatchId "" (setResults (λ _, []) (setError "" s))))) in
  let s' := startVerification JSON_parse server s in
  match (read_loop JSON_parse script "" s0).1 with
  | Closed => busy s' = false ∧ error s' = ""
  | Threw message => busy s' = false ∧ error s' = message
  | Awaiting => busy s' = true ∧ error s' = ""
  end.
Proof.
  intros Hgroups Hserver s0 s'. subst s'. unfold startVerification.
  cbn [groups setTotal setCompleted setBatchId setResults setError].
  assert (Hlen : (length (groups s) =? 0) = false).
  { apply Nat.eqb_neq. by intros ?%nil_length_inv. }
  rewrite Hlen. change (groups (setBusy true _)) with (groups s).
  rewrite Hserver. fold s0.
  destruct (read_loop_receive JSON_parse script "" s0) as (events & Hev).
  destruct (receive_flags events s0) as [Hbusy Herror].
  destruct (read_loop JSON_parse script "" s0) as [[| message |] s1];
    simpl in Hev; subst s1; simpl; by rewrite ?Hbusy, ?Herror.
Qed.

(** C8. The group shown with a result is the one the index holds under the
    result's [label_id]: the last group of the batch with that id, which is
    the group itself when ids are unique.  It depends on the result alone,
    not on its place in the list, so two arrival orders of the same events
    show the same result-group pairs; and whatever the transport delivers,
    the reader loop leaves the console as a sequence of received events
    does. *)
Theorem results_attributed_by_label_id (gs : list LabelGroup.t) :
  (∀ id, groupByLabelId gs !! id =
         last (filter (λ g, LabelGroup.label_id g = id) gs)) ∧
  (∀ rs i r, rs !! i = Some r →
     rendered gs rs !! i =
       Some (r, groupByLabelId gs !! LabelResult.label_id r)) ∧
  (∀ id g, groupByLabelId gs !! id = Some g →
     g ∈ gs ∧ LabelGroup.label_id g = id) ∧
  (NoDup (LabelGroup.label_id <$> gs) →
   ∀ g, g ∈ gs → groupByLabelId gs !! LabelGroup.label_id g = Some g) ∧
  (∀ events events' s, events ≡ₚ events' →
     rendered gs (results (receive events s)) ≡ₚ
     rendered gs (results (receive events' s))) ∧
  (∀ JSON_parse script buffer s,
     ∃ events, (read_loop JSON_parse script buffer s).2 = receive events s).
Proof.
  split; [|split; [|split; [|split; [|split]]]];
    [| | | | |intros; apply read_loop_receive].
  - apply groupByLabelId_last.
  - intros rs i r Hr. unfold rendered. by rewrite list_lookup_fmap, Hr.
  - apply groupByLabelId_sound.
  - intros Hnd g. by apply groupByLabelId_complete.
  - intros events events' s Hperm. unfold rendered.
    rewrite !receive_results, !reverse_Permutation. by rewrite Hperm.
Qed.

Lemma results_attributed_by_label_id_witness :
  NoDup (LabelGroup.label_id <$> [Sample.group 0; Sample.group 1]) ∧
  groupByLabelId [Sample.group 0; Sample.group 1]
    !! LabelGroup.label_id (Sample.group 1) = Some (Sample.group 1) ∧
  rendered [Sample.group 0; Sample.group 1] [Sample.result] !! 0 =
    Some (Sample.result, groupByLabelId [Sample.group 0; Sample.group 1] !! "L1").
Proof.
  assert (Hnd : NoDup (LabelGroup.label_id <$> [Sample.group 0; Sample.group 1])).
  { vm_compute. apply NoDup_cons. split; [|apply NoDup_singleton].
    intros Hin%list_elem_of_singleton. discriminate Hin. }
  destruct (results_attributed_by_label_id [Sample.group 0; Sample.group 1])
    as (_ & Hshown & _ & Hunique & _).
  split; [exact Hnd|]. split.
  - apply (Hunique Hnd (Sample.group 1)). apply elem_of_cons. right.
    apply list_elem_of_here.
  - exact (Hshown [Sample.result] 0 Sample.result eq_refl).
Defined.

(** C7, as the code has it. The loop is left by [break] exactly when the
    transport reports the end of the body, and by an exception when a read
    is rejected; it is never left on a chunk, so no payload closes it.  A
    block whose payload is [done] is passed over: the blocks before and
    after it are handled as if it were not there.  When the loop is left by
    [break], [startVerification] ends with [busy] off and no error. *)
Theorem stream_closed_by_transport
    (JSON_parse : string -> string + BatchEvent.t) :
  (∀ rest buffer s,
     read_loop JSON_parse (ReadDone :: rest) buffer s = (Closed, s)) ∧
  (∀ message rest buffer s,
     read_loop JSON_parse (ReadRejected message :: rest) buffer s =
       (Threw message, s)) ∧
  (∀ script buffer s,
     (read_loop JSON_parse script buffer s).1 = Closed →
     ∃ chunks rest, script = (ReadChunk <$> chunks) ++ ReadDone :: rest) ∧
  (∀ block dataLine before after s,
     data_line block = Some dataLine → payload_of dataLine = "done" →
     process_blocks JSON_parse (before ++ block :: after) s =
     process_blocks JSON_parse (before ++ after) s) ∧
  (∀ server script s,
     groups s ≠ [] → server (requestLabels (groups s)) = Streaming script →
     (read_loop JSON_parse script ""
        (setBusy true
           (setTotal (Z.of_nat (length (groups s)))
              (setCompleted 0
                 (setBatchId ""
                    (setResults (λ _, []) (setError "" s))))))).1 = Closed →
     busy (startVerification JSON_parse server s) = false ∧
     error (startVerification JSON_parse server s) = "").
Proof.
  split; [done|]. split; [done|]. split; [apply read_loop_closed|].
  split.
  2:{ intros server script s Hgroups Hserver Hclosed.
      pose proof (startVerification_exit JSON_parse server script s
                    Hgroups Hserver) as Hexit.
      cbv zeta in Hexit. by rewrite Hclosed in Hexit. }
  intros block dataLine before after s Hline Hdone.
  rewrite !process_blocks_app. destruct (process_blocks _ before s) as [[m|] s'];
    [done|].
  simpl. by rewrite (done_block_skipped JSON_parse block dataLine s' Hline Hdone).
Qed.

Lemma stream_closed_by_transport_witness :
  data_line "data: done" = Some "data: done" ∧
  payload_of "data: done" = "done" ∧
  process_blocks Sample.parse
    ([] ++ "data: done" :: ["data: " +:+ Sample.payload]) initial =
  process_blocks Sample.parse ([] ++ ["data: " +:+ Sample.payload]) initial.
Proof.
  assert (Hline : data_line "data: done" = Some "data: done") by reflexivity.
  assert (Hdone : payload_of "data: done" = "done") by reflexivity.
  split; [exact Hline|]. split; [exact Hdone|].
  destruct (stream_closed_by_transport Sample.parse) as (_ & _ & _ & Hskip & _).
  exact (Hskip "data: done" "data: done" [] ["data: " +:+ Sample.payload]
           initial Hline Hdone).
Defined.

(** C7, as stated, fails. After the [done] marker alone the loop is still
    waiting; an event that follows the marker is still taken in; and the
    end of the body closes the loop, with no error shown, though no marker
    ever came. *)
Lemma end_marker_does_not_close_the_stream :
  (read_loop Sample.parse
     [ReadChunk ("data: done" +:+ sse_separator)] "" initial).1 = Awaiting ∧
  results (read_loop Sample.parse
     [ReadChunk ("data: done" +:+ sse_separator +:+
                 "data: " +:+ Sample.payload +:+ sse_separator);
      ReadDone] "" initial).2 = [Sample.result] ∧
  read_loop Sample.parse [ReadDone] "" initial = (Closed, initial) ∧
  busy (startVerification Sample.parse (λ _, Streaming [ReadDone])
          Sample.one_group) = false ∧
  error (startVerification Sample.parse (λ _, Streaming [ReadDone])
           Sample.one_group) = "".
Proof. vm_compute. repeat split. Qed.

(** * Properties of the pipeline model *)

(** ** Words and normalization *)

Lemma append_cons c s t : String c s +:+ t = String c (s +:+ t).
Proof. reflexivity. Qed.

Lemma append_nil_r s : s +:+ "" = s.
Proof. induction s as [|c s IH]; [done|]. by rewrite append_cons, IH. Qed.

Lemma append_snoc cur c w : (cur +:+ String c "") +:+ w = cur +:+ String c w.
Proof.
  induction cur as [|a cur IH]; [done|]. by rewrite !append_cons, IH.
Qed.

Lemma append_eq_nil s t : s +:+ t = "" → s = "" ∧ t = "".
Proof. by destruct s. Qed.

Lemma blank_free_app s t :
  blank_free s = true → blank_free t = true → blank_free (s +:+ t) = true.
Proof.
  induction s as [|c s IH]; [done|]. rewrite append_cons. simpl.
  intros [-> Hs]%andb_prop Ht. simpl. by apply IH.
Qed.

Lemma words_go_app cur w rest :
  blank_free w = true →
  Pipeline.words_go cur (w +:+ rest) = Pipeline.words_go (cur +:+ w) rest.
Proof.
  revert cur. induction w as [|c w IH]; intros cur.
  - intros _. by rewrite append_nil_r.
  - simpl. intros [Hc Hw]%andb_prop.
    apply negb_true_iff in Hc. rewrite Hc, IH by done. by rewrite append_snoc.
Qed.

Lemma words_go_words cur s :
  blank_free cur = true → Forall is_word (Pipeline.words_go cur s).
Proof.
  revert cur. induction s as [|c s IH]; intros cur Hcur; simpl.
  - destruct (String.eqb cur "") eqn:He; [constructor|].
    apply String.eqb_neq in He. by repeat constructor.
  - destruct (Pipeline.is_space c) eqn:Hc.
    + destruct (String.eqb cur "") eqn:He; [by apply IH|].
      apply String.eqb_neq in He. constructor; [done|by apply IH].
    + apply IH, blank_free_app; [done|]. simpl. by rewrite Hc.
Qed.

Lemma words_go_blank cur rest :
  cur ≠ "" →
  Pipeline.words_go cur (String " " rest) = cur :: Pipeline.words_go "" rest.
Proof. intros Hne. simpl. by apply String.eqb_neq in Hne as ->. Qed.

Lemma words_unwords ws :
  Forall is_word ws → Pipeline.words (Pipeline.unwords ws) = ws.
Proof.
  induction 1 as [|w ws [Hne Hw] Hws IH]; [done|].
  unfold Pipeline.words in *. destruct ws as [|w' ws].
  - simpl. rewrite <-(append_nil_r w) at 1. rewrite words_go_app by done.
    change ("" +:+ w) with w. simpl. by apply String.eqb_neq in Hne as ->.
  - change (Pipeline.unwords (w :: w' :: ws))
      with (w +:+ String " " (Pipeline.unwords (w' :: ws))).
    rewrite words_go_app by done. change ("" +:+ w) with w.
    rewrite words_go_blank by done. by rewrite IH.
Qed.

Lemma words_normalize text :
  Pipeline.words (Pipeline.normalize text) = Pipeline.words text.
Proof. apply words_unwords, words_go_words. done. Qed.

Lemma normalize_eq_words a b :
  Pipeline.normalize a = Pipeline.normalize b ↔
  Pipeline.words a = Pipeline.words b.
Proof.
  split; [|by unfold Pipeline.normalize; intros ->].
  intros Heq. by rewrite <-(words_normalize a), Heq, words_normalize.
Qed.

Lemma canonical_normal :
  Pipeline.normalize Pipeline.canonical_warning = Pipeline.canonical_warning.
Proof. vm_compute. reflexivity. Qed.

Lemma matcher_pass text :
  Pipeline.government_warning_matcher text = fs_pass ↔
  Pipeline.normalize text = Pipeline.canonical_warning.
Proof.
  unfold Pipeline.government_warning_matcher.
  destruct (String.eqb _ _) eqn:He.
  - by apply String.eqb_eq in He.
  - apply String.eqb_neq in He. split; [done|]. by intros ?.
Qed.

Lemma matcher_fail text :
  Pipeline.government_warning_matcher text = fs_fail ↔
  Pipeline.normalize text ≠ Pipeline.canonical_warning.
Proof.
  unfold Pipeline.government_warning_matcher.
  destruct (String.eqb _ _) eqn:He.
  - apply String.eqb_eq in He. split; [done|]. by intros ?.
  - by apply String.eqb_neq in He.
Qed.

Lemma fails_spec text :
  fails text = true ↔ Pipeline.government_warning_matcher text = fs_fail.
Proof. unfold fails. by destruct (Pipeline.government_warning_matcher text). Qed.

(** ** Single-character edits of the canonical text, checked one by one *)

Lemma get_lt i s a : String.get i s = Some a → i < String.length s.
Proof.
  revert i. induction s as [|c s IH]; intros [|i]; simpl; try done; [lia|].
  intros ?%IH. lia.
Qed.

Lemma substitution_table :
  forallb (λ i,
    forallb (λ n,
      let c := ascii_of_nat n in
      match String.get i Pipeline.canonical_warning with
      | Some a =>
          Ascii.eqb a c || (Pipeline.is_space a && Pipeline.is_space c)
          || fails (Pipeline.substitute i c Pipeline.canonical_warning)
      | None => true
      end) (seq 0 256))
    (seq 0 (String.length Pipeline.canonical_warning)) = true.
Proof. vm_compute. reflexivity. Qed.

Lemma deletion_table :
  forallb (λ i, fails (Pipeline.delete_at i Pipeline.canonical_warning))
    (seq 0 (String.length Pipeline.canonical_warning)) = true.
Proof. vm_compute. reflexivity. Qed.

Lemma truncation_table :
  forallb (λ n, fails (Pipeline.truncate n Pipeline.canonical_warning))
    (seq 0 (String.length Pipeline.canonical_warning)) = true.
Proof. vm_compute. reflexivity. Qed.

Lemma table_lookup (f : nat → bool) len i :
  forallb f (seq 0 len) = true → i < len → f i = true.
Proof.
  intros Hall Hi. eapply forallb_forall in Hall; [exact Hall|].
  apply in_seq. lia.
Qed.

Lemma substitution_fails i a c :
  String.get i Pipeline.canonical_warning = Some a → c ≠ a →
  ¬ (Pipeline.is_space a = true ∧ Pipeline.is_space c = true) →
  Pipeline.government_warning_matcher
    (Pipeline.substitute i c Pipeline.canonical_warning) = fs_fail.
Proof.
  intros Hget Hne Hblank.
  pose proof (table_lookup _ _ i substitution_table (get_lt _ _ _ Hget)) as Hrow.
  cbv beta in Hrow.
  pose proof (table_lookup _ _ (nat_of_ascii c) Hrow (nat_ascii_bounded c)) as Hc.
  cbv beta zeta in Hc. rewrite ascii_nat_embedding, Hget in Hc.
  apply orb_prop in Hc as [Hc|Hc]; [|by apply fails_spec].
  apply orb_prop in Hc as [Hc|Hc].
  - apply Ascii.eqb_eq in Hc. congruence.
  - apply andb_prop in Hc. tauto.
Qed.

(** C1. The canonical warning passes.  A text passes exactly when its
    normal form (blank runs and line breaks collapsed) is the canonical
    string, which is the same as having the canonical words in order; every
    other text fails, and the verdict is never [unreadable].  In
    particular, replacing one character of the canonical text by another
    (other than a blank by a blank), dropping one character, cutting the
    text short, or swapping the two clauses gives [fail]. *)
Theorem government_warning_exact_match :
  Pipeline.government_warning_matcher Pipeline.canonical_warning = fs_pass ∧
  (∀ text, Pipeline.normalize text ≠ Pipeline.canonical_warning →
     Pipeline.government_warning_matcher text = fs_fail) ∧
  (∀ text, Pipeline.government_warning_matcher text = fs_pass ↔
     Pipeline.normalize text = Pipeline.canonical_warning) ∧
  (∀ text, Pipeline.government_warning_matcher text ≠ fs_unreadable) ∧
  (∀ text, Pipeline.word_level_match text = true ↔
     Pipeline.government_warning_matcher text = fs_pass) ∧
  (∀ i a c,
     String.get i Pipeline.canonical_warning = Some a → c ≠ a →
     ¬ (Pipeline.is_space a = true ∧ Pipeline.is_space c = true) →
     Pipeline.government_warning_matcher
       (Pipeline.substitute i c Pipeline.canonical_warning) = fs_fail) ∧
  (∀ i, i < String.length Pipeline.canonical_warning →
     Pipeline.government_warning_matcher
       (Pipeline.delete_at i Pipeline.canonical_warning) = fs_fail) ∧
  (∀ n, n < String.length Pipeline.canonical_warning →
     Pipeline.government_warning_matcher
       (Pipeline.truncate n Pipeline.canonical_warning) = fs_fail) ∧
  Pipeline.government_warning_matcher Sample.clauses_swapped = fs_fail.
Proof.
  split; [by apply matcher_pass, canonical_normal|].
  split; [intros text; apply matcher_fail|].
  split; [apply matcher_pass|].
  split.
  { intros text. unfold Pipeline.government_warning_matcher.
    by destruct (String.eqb _ _). }
  split.
  { intros text. unfold Pipeline.word_level_match.
    rewrite bool_decide_eq_true, matcher_pass.
    rewrite <-canonical_normal at 2. symmetry. apply normalize_eq_words. }
  split; [apply substitution_fails|].
  split.
  { intros i Hi. apply fails_spec.
    by apply (table_lookup _ _ i deletion_table). }
  split.
  { intros n Hn. apply fails_spec.
    by apply (table_lookup _ _ n truncation_table). }
  vm_compute. reflexivity.
Qed.

Lemma government_warning_exact_match_witness :
  Pipeline.normalize Sample.clauses_swapped ≠ Pipeline.canonical_warning ∧
  Pipeline.government_warning_matcher Sample.clauses_swapped = fs_fail ∧
  Pipeline.government_warning_matcher Sample.on_four_lines = fs_pass ∧
  Pipeline.government_warning_matcher
    (Pipeline.substitute 0 "g" Pipeline.canonical_warning) = fs_fail ∧
  Pipeline.government_warning_matcher
    (Pipeline.delete_at 18 Pipeline.canonical_warning) = fs_fail ∧
  Pipeline.government_warning_matcher
    (Pipeline.truncate 151 Pipeline.canonical_warning) = fs_fail.
Proof.
  assert (Hswapped :
    Pipeline.normalize Sample.clauses_swapped ≠ Pipeline.canonical_warning).
  { vm_compute. intros Heq. discriminate Heq. }
  assert (Hlines :
    Pipeline.normalize Sample.on_four_lines = Pipeline.canonical_warning).
  { vm_compute. reflexivity. }
  assert (Hcase : ("g" : ascii) ≠ "G"%char) by discriminate.
  assert (Hblank :
    ¬ (Pipeline.is_space "G" = true ∧ Pipeline.is_space "g" = true)).
  { intros [Hg _]. discriminate Hg. }
  assert (Hcolon : 18 < String.length Pipeline.canonical_warning)
    by (vm_compute; lia).
  assert (Hcut : 151 < String.length Pipeline.canonical_warning)
    by (vm_compute; lia).
  destruct government_warning_exact_match
    as (_ & Hfail & Hpass & _ & _ & Hsubst & Hdelete & Htruncate & _).
  split; [exact Hswapped|].
  split; [exact (Hfail Sample.clauses_swapped Hswapped)|].
  split; [exact (proj2 (Hpass Sample.on_four_lines) Hlines)|].
  split; [exact (Hsubst 0 "G"%char "g"%char eq_refl Hcase Hblank)|].
  split; [exact (Hdelete 18 Hcolon)|exact (Htruncate 151 Hcut)].
Defined.

(** ** The extraction state machine and the resolver *)

Section Unit.

Variables required images : list string.
Variable provider : Pipeline.Provider.
Variable evaluate : Pipeline.MachineState -> option Pipeline.Evaluation.

(** The three ways a run can go: an error at pass 1, a result at pass 1,
    or a second pass that ends in an error or a result. *)
Lemma extraction_cases :
  (∃ e, provider 0 (Pipeline.first_call required images) = inl e ∧
     Pipeline.extraction required images provider =
       (Pipeline.Error e, [Pipeline.first_call required images])) ∨
  (∃ found, provider 0 (Pipeline.first_call required images) = inr found ∧
     Pipeline.still_missing required found = [] ∧
     Pipeline.extraction required images provider =
       (Pipeline.Complete found, [Pipeline.first_call required images])) ∨
  (∃ found missing second_call,
     provider 0 (Pipeline.first_call required images) = inr found ∧
     Pipeline.still_missing required found = missing ∧ missing ≠ [] ∧
     second_call =
       Pipeline.mkCall Pipeline.degraded_image_specialized images missing ∧
     ((∃ e, provider 1 second_call = inl e ∧
         Pipeline.extraction required images provider =
           (Pipeline.Error e, [Pipeline.first_call required images; second_call])) ∨
      (∃ second outcome, provider 1 second_call = inr second ∧
         Pipeline.extraction required images provider =
           (outcome, [Pipeline.first_call required images; second_call]) ∧
         (outcome = Pipeline.Complete (Pipeline.fill found second) ∨
          ∃ left, left ≠ [] ∧
            outcome = Pipeline.Residual (Pipeline.fill found second) left)))).
Proof.
  unfold Pipeline.extraction. cbn [Pipeline.drive Pipeline.gateway_request length app].
  destruct (provider 0 (Pipeline.first_call required images)) as [e|found] eqn:H1.
  { left. by exists e. }
  right. cbn [Pipeline.advance].
  destruct (Pipeline.still_missing required found) as [|f missing] eqn:Hm.
  { left. by exists found. }
  right. exists found, (f :: missing), (Pipeline.mkCall Pipeline.degraded_image_specialized images (f :: missing)).
  repeat (split; [done|]).
  cbn [Pipeline.gateway_request length app].
  destruct (provider 1 _) as [e|second] eqn:H2.
  { left. by exists e. }
  right. cbn [Pipeline.advance].
  destruct (Pipeline.still_missing required (Pipeline.fill found second))
    as [|g left] eqn:Hl.
  - eexists second, _. repeat split. by left.
  - eexists second, _. repeat split. right. by exists (g :: left).
Qed.

Lemma extraction_terminal :
  Pipeline.terminal (Pipeline.extraction required images provider).1 = true.
Proof.
  destruct extraction_cases
    as [(e&_&->)|[(found&_&_&->)|(found&missing&call&_&_&_&_&
         [(e&_&->)|(second&outcome&_&->&[->|(left&_&->)])])]]; done.
Qed.

End Unit.

Lemma work_unit_parts required images provider evaluate :
  Pipeline.work_unit required images provider evaluate =
  (Pipeline.overall_status (Pipeline.extraction required images provider).1
     (evaluate (Pipeline.extraction required images provider).1),
   (Pipeline.extraction required images provider).2).
Proof.
  unfold Pipeline.work_unit. by destruct (Pipeline.extraction _ _ _).
Qed.

Lemma overall_status_final outcome evaluation :
  Pipeline.overall_status outcome evaluation = PASS ∨
  Pipeline.overall_status outcome evaluation = FAIL ∨
  Pipeline.overall_status outcome evaluation = ESCALATE ∨
  Pipeline.overall_status outcome evaluation = ERROR.
Proof.
  unfold Pipeline.overall_status.
  destruct outcome, evaluation as [ev|]; auto;
    destruct (existsb _ _); auto; destruct (_ || _); auto.
Qed.

(** C2. When a gateway call of a work unit ends in a ProviderError, that
    call is the last one the unit makes (nothing is retried), the state
    machine ends in [Error] with that error (not in [Residual]), and the
    label's overall status is [ERROR].  A unit makes at most two calls and
    always reaches a terminal state. *)
Theorem provider_error_is_terminal
    (required images : list string) (provider : Pipeline.Provider)
    (evaluate : Pipeline.MachineState -> option Pipeline.Evaluation) :
  (∀ i call e,
     (Pipeline.work_unit required images provider evaluate).2 !! i = Some call →
     provider i call = inl e →
     length (Pipeline.work_unit required images provider evaluate).2 = S i ∧
     (Pipeline.work_unit required images provider evaluate).1 = ERROR ∧
     (Pipeline.extraction required images provider).1 = Pipeline.Error e) ∧
  length (Pipeline.work_unit required images provider evaluate).2 ≤ 2 ∧
  Pipeline.terminal (Pipeline.extraction required images provider).1 = true.
Proof.
  rewrite work_unit_parts. cbn [fst snd].
  split; [|split; [|apply extraction_terminal]].
  - intros i call e.
    destruct (extraction_cases required images provider)
      as [(e1&H1&->)|[(found&H1&_&->)|(found&missing&call2&H1&_&_&_&
           [(e2&H2&->)|(second&outcome&H2&->&_)])]]; cbn [fst snd].
    + destruct i as [|i]; [|done]. intros [= <-] He.
      rewrite H1 in He. by injection He as <-.
    + destruct i as [|i]; [|done]. intros [= <-] He. congruence.
    + destruct i as [|[|i]]; [| |done]; intros [= <-] He.
      * congruence.
      * rewrite H2 in He. by injection He as <-.
    + destruct i as [|[|i]]; [| |done]; intros [= <-] He; congruence.
  - destruct (extraction_cases required images provider)
      as [(e1&H1&->)|[(found&H1&_&->)|(found&missing&call2&H1&_&_&_&
           [(e2&H2&->)|(second&outcome&H2&->&_)])]]; simpl; lia.
Qed.

Lemma provider_error_is_terminal_witness :
  (Pipeline.work_unit ["brand_name"] ["front.jpg"] Sample.failing_provider
     (λ _, None)).2 !! 0
    = Some (Pipeline.mkCall Pipeline.standard ["front.jpg"] ["brand_name"]) ∧
  length (Pipeline.work_unit ["brand_name"] ["front.jpg"]
            Sample.failing_provider (λ _, None)).2 = 1 ∧
  (Pipeline.work_unit ["brand_name"] ["front.jpg"] Sample.failing_provider
     (λ _, None)).1 = ERROR ∧
  (Pipeline.extraction ["brand_name"] ["front.jpg"] Sample.failing_provider).1
    = Pipeline.Error Pipeline.provider_timeout.
Proof.
  assert (Hcall :
    (Pipeline.work_unit ["brand_name"] ["front.jpg"] Sample.failing_provider
       (λ _, None)).2 !! 0
    = Some (Pipeline.mkCall Pipeline.standard ["front.jpg"] ["brand_name"]))
    by reflexivity.
  split; [exact Hcall|].
  destruct (provider_error_is_terminal ["brand_name"] ["front.jpg"]
              Sample.failing_provider (λ _, None)) as (Hlast & _).
  exact (Hlast 0 _ Pipeline.provider_timeout Hcall eq_refl).
Defined.

(** C3. The overall status of an emitted result is one of PASS, FAIL,
    ESCALATE and ERROR; RETRY, though a member of the enumeration, is never
    the status a work unit reports. *)
Theorem emitted_status_never_retry :
  (∀ outcome evaluation,
     Pipeline.overall_status outcome evaluation ≠ RETRY) ∧
  (∀ required images provider evaluate,
     (Pipeline.work_unit required images provider evaluate).1 ≠ RETRY ∧
     ((Pipeline.work_unit required images provider evaluate).1 = PASS ∨
      (Pipeline.work_unit required images provider evaluate).1 = FAIL ∨
      (Pipeline.work_unit required images provider evaluate).1 = ESCALATE ∨
      (Pipeline.work_unit required images provider evaluate).1 = ERROR)).
Proof.
  assert (Hnever : ∀ outcome evaluation,
             Pipeline.overall_status outcome evaluation ≠ RETRY).
  { intros outcome evaluation.
    destruct (overall_status_final outcome evaluation) as [-> | [-> | [-> | ->]]];
      discriminate. }
  split; [exact Hnever|].
  intros required images provider evaluate. rewrite work_unit_parts.
  split; [apply Hnever|apply overall_status_final].
Qed.

(** * Further properties of the console *)

(** ** Splitting text at a separator *)

Lemma append_assoc_s (a b c : string) : (a +:+ b) +:+ c = a +:+ (b +:+ c).
Proof. induction a as [|x a IH]; [done|]. rewrite !append_cons. by f_equal. Qed.

Lemma length_append_s (a b : string) :
  String.length (a +:+ b) = String.length a + String.length b.
Proof. induction a as [|x a IH]; [done|]. rewrite append_cons. simpl. by f_equal. Qed.

Lemma prefix_length sep x :
  String.prefix sep x = true → String.length sep ≤ String.length x.
Proof.
  revert x. induction sep as [|a sep IH]; intros [|b x]; simpl; try done; try lia.
  destruct (ascii_dec a b); [|done]. intros ?%IH. lia.
Qed.

Lemma prefix_app sep x y :
  String.length sep ≤ String.length x →
  String.prefix sep (x +:+ y) = String.prefix sep x.
Proof.
  revert x. induction sep as [|a sep IH]; intros x.
  - intros _. by destruct x, y.
  - destruct x as [|b x]; simpl; [lia|]. intros Hlen.
    destruct (ascii_dec a b); [|done]. apply IH. lia.
Qed.

Lemma prefix_drop sep x :
  String.prefix sep x = true → x = sep +:+ JS.drop (String.length sep) x.
Proof.
  revert x. induction sep as [|a sep IH]; intros [|b x]; simpl; try done.
  destruct (ascii_dec a b) as [->|]; [|done]. intros Hx%IH.
  rewrite append_cons. f_equal. exact Hx.
Qed.

Lemma drop_app k x y :
  k ≤ String.length x → JS.drop k (x +:+ y) = JS.drop k x +:+ y.
Proof.
  revert x. induction k as [|k IH]; intros [|b x]; simpl; try done; try lia.
  intros ?. apply IH. lia.
Qed.

Lemma drop_length k x :
  k ≤ String.length x →
  String.length (JS.drop k x) = String.length x - k.
Proof.
  revert x. induction k as [|k IH]; intros [|b x]; simpl; try done; try lia.
  intros ?. apply IH. lia.
Qed.

Lemma drop_cons k c x :
  0 < k → JS.drop k (String c x) = JS.drop (k - 1) x.
Proof. destruct k; [lia|]. intros _. simpl. by rewrite Nat.sub_0_r. Qed.

Lemma split_go_skip sep k cur x :
  k ≤ String.length x →
  JS.split_go sep k cur x = JS.split_go sep 0 cur (JS.drop k x).
Proof.
  revert x. induction k as [|k IH]; intros [|b x]; simpl; try done; try lia.
  intros ?. apply IH. lia.
Qed.

Lemma split_go_cons sep cur c x :
  JS.split_go sep 0 cur (String c x) =
  if String.prefix sep (String c x)
  then cur :: JS.split_go sep (String.length sep - 1) "" x
  else JS.split_go sep 0 (cur +:+ String c "") x.
Proof. reflexivity. Qed.

Lemma split_go_cur sep cur x :
  ∃ piece pieces,
    JS.split_go sep 0 "" x = piece :: pieces ∧
    JS.split_go sep 0 cur x = (cur +:+ piece) :: pieces.
Proof.
  revert cur. induction x as [|c x IH]; intros cur.
  - exists "", []. by rewrite append_nil_r.
  - rewrite !split_go_cons. destruct (String.prefix sep (String c x)).
    + eexists "", _. split; [reflexivity|]. by rewrite append_nil_r.
    + change ("" +:+ String c "") with (String c "").
      destruct (IH (String c "")) as (p & ps & H0 & ->).
      destruct (IH (cur +:+ String c "")) as (p' & ps' & H0' & ->).
      rewrite H0 in H0'. injection H0' as <- <-.
      eexists _, _. split; [reflexivity|]. by rewrite append_snoc.
Qed.

Lemma split_nonempty sep x : JS.split sep x ≠ [].
Proof.
  unfold JS.split. by destruct (split_go_cur sep "" x) as (p & ps & -> & _).
Qed.

(** Either the separator does not occur, or the text is cut at its first
    occurrence, and stays cut there when more text follows. *)
Lemma split_first sep x :
  sep ≠ "" →
  JS.split sep x = [x] ∨
  ∃ before after,
    String.length after < String.length x ∧
    JS.split sep x = before :: JS.split sep after ∧
    ∀ y, JS.split sep (x +:+ y) = before :: JS.split sep (after +:+ y).
Proof.
  intros Hsep. unfold JS.split. induction x as [|c x IH]; [by left|].
  destruct (String.prefix sep (String c x)) eqn:Hp.
  - right. exists "", (JS.drop (String.length sep) (String c x)).
    pose proof (prefix_length _ _ Hp) as Hlen. simpl in Hlen.
    assert (Hpos : 0 < String.length sep) by (destruct sep; [done|simpl; lia]).
    split; [|split].
    + rewrite drop_length by (simpl; lia). simpl. lia.
    + rewrite split_go_cons, Hp, split_go_skip, drop_cons by lia. done.
    + intros y. change (String c x +:+ y) with (String c (x +:+ y)).
      rewrite split_go_cons.
      change (String c (x +:+ y)) with (String c x +:+ y).
      rewrite prefix_app, Hp by (simpl; lia).
      rewrite split_go_skip by (rewrite length_append_s; lia).
      by rewrite drop_cons, drop_app by lia.
  - rewrite split_go_cons, Hp.
    destruct (split_go_cur sep (String c "") x) as (p & ps & H0 & Hc).
    change ("" +:+ String c "") with (String c "").
    destruct IH as [Hone|(before & after & Hlen & Hcut & Hmore)].
    + left. rewrite Hc. rewrite H0 in Hone. by injection Hone as -> ->.
    + right. exists (String c before), after. split; [simpl; lia|].
      rewrite H0 in Hcut. injection Hcut as -> ->. split; [by rewrite Hc|].
      intros y. change (String c x +:+ y) with (String c (x +:+ y)).
      rewrite split_go_cons.
      change (String c (x +:+ y)) with (String c x +:+ y).
      assert (Hlong : String.length sep ≤ String.length (String c x)).
      { destruct (decide (String.length sep ≤ String.length (String c x)))
          as [|Hshort]; [done|]. exfalso.
        (* a text shorter than the separator has a single piece *)
        assert (Hnone : ∀ z cur, String.length z < String.length sep →
                  JS.split_go sep 0 cur z = [cur +:+ z]).
        { clear. intros z. induction z as [|d z IHz]; intros cur Hz.
          - by rewrite append_nil_r.
          - rewrite split_go_cons.
            destruct (String.prefix sep (String d z)) eqn:Hpz.
            + apply prefix_length in Hpz. lia.
            + rewrite IHz by (simpl in Hz; lia). by rewrite append_snoc. }
        rewrite (Hnone x "") in H0 by (simpl in Hshort; lia).
        injection H0 as _ Hnil. by apply (split_nonempty sep after). }
      rewrite prefix_app, Hp by done.
      change ("" +:+ String c "") with (String c "").
      destruct (split_go_cur sep (String c "") (x +:+ y)) as (q & qs & Hq0 & ->).
      specialize (Hmore y). rewrite Hq0 in Hmore. by injection Hmore as -> ->.
Qed.

Lemma removelast_cons_ne {A} (a : A) l :
  l ≠ [] → removelast (a :: l) = a :: removelast l.
Proof. by destruct l. Qed.

Lemma last_cons_ne {A} (a : A) l : l ≠ [] → last (a :: l) = last l.
Proof. by destruct l. Qed.

Lemma last_app_ne {A} (l k : list A) : k ≠ [] → last (l ++ k) = last k.
Proof.
  intros Hk. induction l as [|a l IH]; [done|].
  simpl app. rewrite last_cons_ne; [done|]. by destruct l, k.
Qed.

(** Cutting a text in two and splitting the second part together with the
    unfinished piece of the first gives the pieces of the whole text. *)
Lemma split_append sep x y :
  sep ≠ "" →
  JS.split sep (x +:+ y) =
  removelast (JS.split sep x) ++
  JS.split sep (default "" (last (JS.split sep x)) +:+ y).
Proof.
  intros Hsep. remember (String.length x) as n eqn:Hn. revert x Hn.
  induction n as [n IH] using lt_wf_ind. intros x ->.
  destruct (split_first sep x Hsep) as [->|(before & after & Hlen & Hcut & Hmore)];
    [done|].
  rewrite Hmore, Hcut, (IH _ Hlen after eq_refl).
  pose proof (split_nonempty sep after).
  by rewrite removelast_cons_ne, last_cons_ne.
Qed.

Section Chunks.

Variable JSON_parse : string -> string + BatchEvent.t.

(** X1. Where the transport cuts the stream does not matter: two chunks
    read one after the other leave the loop and the console exactly as
    the same text read in one chunk. *)
Theorem read_loop_chunk_boundary (a b : string) (rest : list ReadResult)
    (buffer : string) (s : AppState) :
  read_loop JSON_parse (ReadChunk a :: ReadChunk b :: rest) buffer s =
  read_loop JSON_parse (ReadChunk (a +:+ b) :: rest) buffer s.
Proof.
  rewrite !read_loop_chunk. cbv zeta.
  rewrite <-append_assoc_s, (split_append sse_separator (buffer +:+ a) b) by done.
  set (pieces := JS.split sse_separator (buffer +:+ a)).
  set (more := JS.split sse_separator (default "" (last pieces) +:+ b)).
  assert (Hmore : more ≠ []) by apply split_nonempty.
  rewrite removelast_app, last_app_ne, process_blocks_app by done.
  destruct (process_blocks JSON_parse (removelast pieces) s) as [[m|] s'];
    [done|].
  by rewrite read_loop_chunk.
Qed.

End Chunks.

(** ** Framed events *)

Lemma no_line_feed_app a b :
  no_line_feed a = true → no_line_feed b = true →
  no_line_feed (a +:+ b) = true.
Proof.
  induction a as [|c a IH]; [done|]. rewrite append_cons. simpl.
  intros [-> Ha]%andb_prop Hb. simpl. by apply IH.
Qed.

Lemma prefix_line_feed sep c x :
  Ascii.eqb c JS.LF = false →
  String.prefix (String JS.LF sep) (String c x) = false.
Proof.
  intros Hc. destruct (String.prefix _ _) eqn:Hp; [|done].
  cbn [String.prefix] in Hp. destruct (ascii_dec JS.LF c) as [<-|]; [|done].
  by rewrite Ascii.eqb_refl in Hc.
Qed.

Lemma split_line_free cur z :
  no_line_feed z = true → JS.split_go JS.nl 0 cur z = [cur +:+ z].
Proof.
  revert cur. induction z as [|c z IH]; intros cur; simpl no_line_feed.
  - intros _. by rewrite append_nil_r.
  - intros [Hc Hz]%andb_prop. apply negb_true_iff in Hc.
    rewrite split_go_cons. unfold JS.nl at 1. rewrite prefix_line_feed by done.
    rewrite IH by done. by rewrite append_snoc.
Qed.

Lemma split_block cur block rest :
  no_line_feed block = true →
  JS.split_go sse_separator 0 cur (block +:+ sse_separator +:+ rest) =
  (cur +:+ block) :: JS.split sse_separator rest.
Proof.
  revert cur. induction block as [|c block IH]; intros cur; simpl no_line_feed.
  - intros _. rewrite append_nil_r.
    change ("" +:+ sse_separator +:+ rest)
      with (String JS.LF (String JS.LF rest)).
    rewrite split_go_cons.
    assert (Hp : String.prefix sse_separator (String JS.LF (String JS.LF rest))
                 = true) by by destruct rest.
    by rewrite Hp.
  - intros [Hc Hz]%andb_prop. apply negb_true_iff in Hc.
    rewrite append_cons, split_go_cons.
    change sse_separator with (String JS.LF JS.nl) at 1.
    rewrite prefix_line_feed by done. rewrite IH by done.
    by rewrite append_snoc.
Qed.

Lemma split_frames payloads more :
  Forall (λ p, no_line_feed p = true) payloads →
  JS.split sse_separator (joined (sse_frame <$> payloads) +:+ more) =
  ((λ p, "data: " +:+ p) <$> payloads) ++ JS.split sse_separator more.
Proof.
  induction 1 as [|p payloads Hp _ IH]; [done|].
  rewrite fmap_cons. simpl joined. unfold sse_frame at 1, JS.split.
  rewrite !append_assoc_s.
  rewrite <-(append_assoc_s "data: " p), split_block.
  - by rewrite IH.
  - by apply no_line_feed_app.
Qed.

Lemma joined_app a b : joined (a ++ b) = joined a +:+ joined b.
Proof.
  induction a as [|x a IH]; [done|]. simpl. by rewrite IH, append_assoc_s.
Qed.

Section Frames.

Variable JSON_parse : string -> string + BatchEvent.t.

(** What the loop does with one well-formed block. *)
Lemma process_data_block payload s :
  no_line_feed payload = true →
  process_block JSON_parse ("data: " +:+ payload) s =
  if String.eqb (JS.trim payload) "done" then inr s
  else match JSON_parse (JS.trim payload) with
       | inl message => inl message
       | inr event => inr (apply_event event s)
       end.
Proof.
  intros Hp. unfold process_block, data_line, JS.split.
  rewrite split_line_free by by apply no_line_feed_app.
  change ("" +:+ "data: " +:+ payload) with ("data: " +:+ payload).
  assert (Hstart : JS.startsWith ("data: " +:+ payload) "data: " = true).
  { unfold JS.startsWith. by destruct payload. }
  cbn [List.find]. rewrite Hstart. unfold payload_of.
  assert (Hrep : JS.replace "data: " "" ("data: " +:+ payload) = payload).
  { by destruct payload. }
  by rewrite Hrep.
Qed.

Lemma process_data_blocks payloads events s :
  Forall2 (well_framed JSON_parse) payloads events →
  process_blocks JSON_parse ((λ p, "data: " +:+ p) <$> payloads) s =
  (None, receive events s).
Proof.
  intros Hall. revert s.
  induction Hall as [|p e payloads events (Hp & Hdone & He) _ IH]; intros s;
    [done|].
  rewrite fmap_cons. simpl process_blocks.
  rewrite process_data_block by done.
  apply String.eqb_neq in Hdone. rewrite Hdone, He. apply IH.
Qed.

Lemma read_loop_chunks c cs rest buffer s :
  read_loop JSON_parse ((ReadChunk <$> c :: cs) ++ rest) buffer s =
  read_loop JSON_parse (ReadChunk (joined (c :: cs)) :: rest) buffer s.
Proof.
  revert c. induction cs as [|d cs IH]; intros c.
  - simpl. by rewrite append_nil_r.
  - rewrite !fmap_cons. simpl app. rewrite read_loop_chunk_boundary.
    change (ReadChunk (c +:+ d) :: (ReadChunk <$> cs) ++ rest)
      with ((ReadChunk <$> (c +:+ d) :: cs) ++ rest).
    rewrite IH. simpl joined. by rewrite append_assoc_s.
Qed.

End Frames.

Section Runs.

Variable JSON_parse : string -> string + BatchEvent.t.

(** With a batch to verify and a response body to read, the run ends as
    the reader loop is left. *)
Lemma startVerification_streaming server script s :
  groups s ≠ [] → server (requestLabels (groups s)) = Streaming script →
  startVerification JSON_parse server s =
  match read_loop JSON_parse script "" (begun s) with
  | (Closed, s') => setBusy false s'
  | (Threw message, s') => setBusy false (setError message s')
  | (Awaiting, s') => s'
  end.
Proof.
  intros Hgroups Hserver. unfold startVerification.
  cbn [groups setTotal setCompleted setBatchId setResults setError].
  assert (Hlen : (length (groups s) =? 0) = false).
  { apply Nat.eqb_neq. by intros ?%nil_length_inv. }
  rewrite Hlen. change (groups (setBusy true _)) with (groups s).
  by rewrite Hserver.
Qed.

(** X2. Every event the server frames arrives: when the body is a
    sequence of [data: ] blocks whose payloads parse, optionally closed by the
    [done] block, then however the transport cuts it into chunks the run
    ends with [busy] off, no error, and the console that received exactly
    those events in order. *)
Theorem framed_events_received server payloads events chunks
    (marker : bool) s :
  groups s ≠ [] →
  Forall2 (well_framed JSON_parse) payloads events →
  joined chunks =
    joined (sse_frame <$> payloads) +:+
    (if marker then sse_frame "done" else "") →
  server (requestLabels (groups s)) =
    Streaming ((ReadChunk <$> chunks) ++ [ReadDone]) →
  startVerification JSON_parse server s =
    setBusy false (receive events (begun s)).
Proof.
  intros Hgroups Hall Htext Hserver.
  rewrite (startVerification_streaming server _ s Hgroups Hserver).
  assert (Hlf : Forall (λ p, no_line_feed p = true) payloads).
  { clear -Hall. induction Hall as [|p e ps es (?&_) _ IH]; by constructor. }
  assert (Hblocks :
    process_blocks JSON_parse ((λ p, "data: " +:+ p) <$> payloads) (begun s)
    = (None, receive events (begun s))).
  { apply process_data_blocks. exact Hall. }
  destruct chunks as [|c cs].
  { destruct Hall as [|p e ps es _ _]; [|by destruct marker].
    destruct marker; [done|]. done. }
  rewrite read_loop_chunks, Htext, read_loop_chunk. cbv zeta.
  change ("" +:+ joined (sse_frame <$> payloads) +:+
            (if marker then sse_frame "done" else ""))
    with (joined (sse_frame <$> payloads) +:+
            (if marker then sse_frame "done" else "")).
  rewrite split_frames by done. destruct marker.
  - change (JS.split sse_separator (sse_frame "done")) with ["data: done"; ""].
    rewrite removelast_app, last_app_ne by done. cbn [removelast].
    rewrite process_blocks_app, Hblocks. by cbn.
  - change (JS.split sse_separator "") with [""].
    rewrite removelast_app, last_app_ne by done. cbn [removelast].
    rewrite app_nil_r, Hblocks. by cbn.
Qed.

(** X3. A payload that does not parse ends the run at once: the events
    before it are kept, its error message is shown, [busy] goes off, and
    nothing that follows it, in the same chunk or in later reads, is looked
    at. *)
Theorem malformed_payload_stops_run server payloads events bad message tail
    chunks rest s :
  groups s ≠ [] →
  Forall2 (well_framed JSON_parse) payloads events →
  no_line_feed bad = true → JS.trim bad ≠ "done" →
  JSON_parse (JS.trim bad) = inl message →
  joined chunks = joined (sse_frame <$> payloads) +:+ sse_frame bad +:+ tail →
  server (requestLabels (groups s)) = Streaming ((ReadChunk <$> chunks) ++ rest) →
  startVerification JSON_parse server s =
    setBusy false (setError message (receive events (begun s))).
Proof.
  intros Hgroups Hall Hbad Hdone Hparse Htext Hserver.
  rewrite (startVerification_streaming server _ s Hgroups Hserver).
  assert (Hlf : Forall (λ p, no_line_feed p = true) payloads).
  { clear -Hall. induction Hall as [|p e ps es (?&_) _ IH]; by constructor. }
  destruct chunks as [|c cs].
  { exfalso. simpl in Htext. symmetry in Htext.
    apply append_eq_nil in Htext as [_ Htext]. discriminate Htext. }
  rewrite read_loop_chunks, Htext, read_loop_chunk. cbv zeta.
  change ("" +:+ joined (sse_frame <$> payloads) +:+ sse_frame bad +:+ tail)
    with (joined (sse_frame <$> payloads) +:+ sse_frame bad +:+ tail).
  rewrite split_frames by done.
  assert (Hsplit : JS.split sse_separator (sse_frame bad +:+ tail) =
            ("data: " +:+ bad) :: JS.split sse_separator tail).
  { replace (sse_frame bad +:+ tail)
      with (("data: " +:+ bad) +:+ sse_separator +:+ tail)
      by (unfold sse_frame; by rewrite !append_assoc_s).
    apply (split_block ""). by apply no_line_feed_app. }
  rewrite Hsplit.
  pose proof (split_nonempty sse_separator tail) as Htail.
  rewrite removelast_app by done. rewrite removelast_cons_ne by done.
  rewrite process_blocks_app, (process_data_blocks JSON_parse _ _ _ Hall).
  cbn [process_blocks]. rewrite process_data_block by done.
  apply String.eqb_neq in Hdone. by rewrite Hdone, Hparse.
Qed.

End Runs.

(** ** Label names *)

Lemma trimStart_fixed s :
  match s with String c _ => JS.is_white c = false | "" => True end →
  JS.trimStart s = s.
Proof. destruct s as [|c s]; [done|]. simpl. by intros ->. Qed.

Lemma trimStart_head s :
  match JS.trimStart s with
  | String c _ => JS.is_white c = false
  | "" => True
  end.
Proof.
  induction s as [|c s IH]; [done|]. simpl.
  by destruct (JS.is_white c) eqn:Hc.
Qed.

Lemma trimEnd_cons c s :
  JS.trimEnd (String c s) =
  if JS.all_white (String c s) then "" else String c (JS.trimEnd s).
Proof. reflexivity. Qed.

Lemma trimEnd_head s :
  match s with String c _ => JS.is_white c = false | "" => True end →
  match JS.trimEnd s with
  | String c _ => JS.is_white c = false
  | "" => True
  end.
Proof.
  destruct s as [|c s]; [done|]. intros Hc. rewrite trimEnd_cons.
  by destruct (JS.all_white _).
Qed.

Lemma all_white_trimEnd s :
  JS.all_white s = false → JS.all_white (JS.trimEnd s) = false.
Proof.
  induction s as [|c s IH]; [done|]. intros Hs. rewrite trimEnd_cons, Hs.
  simpl in *. destruct (JS.is_white c); [|done]. simpl in *. by apply IH.
Qed.

Lemma trimEnd_idem s : JS.trimEnd (JS.trimEnd s) = JS.trimEnd s.
Proof.
  induction s as [|c s IH]; [done|]. rewrite trimEnd_cons.
  destruct (JS.all_white (String c s)) eqn:Hs; [done|].
  rewrite trimEnd_cons, IH.
  assert (Hw : JS.all_white (String c (JS.trimEnd s)) = false).
  { simpl in *. destruct (JS.is_white c); [|done]. simpl in *.
    by apply all_white_trimEnd. }
  by rewrite Hw.
Qed.

Lemma trim_idem s : JS.trim (JS.trim s) = JS.trim s.
Proof.
  unfold JS.trim.
  rewrite (trimStart_fixed (JS.trimEnd (JS.trimStart s))).
  - apply trimEnd_idem.
  - apply trimEnd_head, trimStart_head.
Qed.

Lemma all_white_app a b :
  JS.all_white (a +:+ b) = JS.all_white a && JS.all_white b.
Proof.
  induction a as [|c a IH]; [done|]. rewrite append_cons. simpl.
  by rewrite IH, andb_assoc.
Qed.

Lemma trimEnd_fixed_nonwhite b :
  b ≠ "" → JS.trimEnd b = b → JS.all_white b = false.
Proof.
  destruct b as [|c b]; [done|]. intros _. rewrite trimEnd_cons.
  by destruct (JS.all_white _).
Qed.

Lemma trimEnd_app a b :
  b ≠ "" → JS.trimEnd b = b → JS.trimEnd (a +:+ b) = a +:+ b.
Proof.
  intros Hb Hfix. induction a as [|c a IH]; [done|].
  rewrite append_cons, trimEnd_cons, IH.
  assert (Hw : JS.all_white (String c (a +:+ b)) = false).
  { simpl. rewrite all_white_app, (trimEnd_fixed_nonwhite b Hb Hfix).
    by rewrite !andb_false_r. }
  by rewrite Hw.
Qed.

Lemma trim_fixed_parts s :
  JS.trim s = s ↔ JS.trimStart s = s ∧ JS.trimEnd s = s.
Proof.
  split.
  - intros Hs. assert (Hstart : JS.trimStart s = s).
    { apply trimStart_fixed. rewrite <-Hs. apply trimEnd_head, trimStart_head. }
    split; [done|]. unfold JS.trim in Hs. by rewrite Hstart in Hs.
  - intros [Hstart Hend]. unfold JS.trim. by rewrite Hstart.
Qed.

Lemma proper_name_app a b :
  proper_name a → b ≠ "" → JS.trimEnd b = b → proper_name (a +:+ b).
Proof.
  intros [Ha Hfix] Hb Hend. apply trim_fixed_parts in Hfix as [Hstart _].
  split.
  - by intros [? _]%append_eq_nil.
  - apply trim_fixed_parts. split; [|by apply trimEnd_app].
    apply trimStart_fixed. destruct a as [|c a]; [done|].
    rewrite append_cons. simpl in Hstart.
    destruct (JS.is_white c) eqn:Hc; [|done].
    exfalso. pose proof (trimStart_head a) as Hhead. rewrite Hstart in Hhead.
    congruence.
Qed.

Lemma sep_free_collapse in_run s : sep_free (collapse_seps in_run s) = true.
Proof.
  revert in_run. induction s as [|c s IH]; intros in_run; [done|]. simpl.
  destruct (is_sep c) eqn:Hc.
  - destruct in_run; [apply IH|]. simpl. by rewrite IH.
  - simpl. by rewrite Hc, IH.
Qed.

Lemma sep_free_trimStart s : sep_free s = true → sep_free (JS.trimStart s) = true.
Proof.
  induction s as [|c s IH]; [done|]. simpl.
  intros [Hc Hs]%andb_prop. destruct (JS.is_white c); [by apply IH|].
  simpl. by rewrite Hc, Hs.
Qed.

Lemma sep_free_trimEnd s : sep_free s = true → sep_free (JS.trimEnd s) = true.
Proof.
  induction s as [|c s IH]; [done|]. rewrite trimEnd_cons.
  intros [Hc Hs]%andb_prop. destruct (JS.all_white _); [done|].
  simpl. by rewrite Hc, IH.
Qed.

(** X4. A label name derived from a file name is never empty, has no
    white space at either end, and holds no underscore or hyphen. *)
Theorem baseLabelName_proper (filename : string) :
  baseLabelName filename ≠ "" ∧
  JS.trim (baseLabelName filename) = baseLabelName filename ∧
  sep_free (baseLabelName filename) = true.
Proof.
  unfold baseLabelName.
  destruct (String.eqb _ "") eqn:He; [by repeat split|].
  apply String.eqb_neq in He. split; [done|]. split; [apply trim_idem|].
  apply sep_free_trimEnd, sep_free_trimStart, sep_free_collapse.
Qed.

Lemma suggestedLabelName_proper {A} `{HasFilename A} (images : list A) :
  images ≠ [] → proper_name (suggestedLabelName images).
Proof.
  destruct images as [|i [|j images]]; [done| |]; intros _.
  - destruct (baseLabelName_proper (filename_of i)) as (?&?&_). by split.
  - unfold suggestedLabelName. apply proper_name_app.
    + destruct (baseLabelName_proper (filename_of i)) as (?&?&_). by split.
    + done.
    + rewrite <-append_assoc_s. by apply trimEnd_app.
Qed.

(** ** How the batch grows *)

Lemma createGroup_groups uuid s :
  (groups (createGroup uuid s) = groups s ∧
   selectedIds (createGroup uuid s) = selectedIds s ∧
   uploaded (createGroup uuid s) = uploaded s) ∨
  (1 ≤ length (selectedImages s) ≤ 3 ∧ length (groups s) < MAX_BATCH ∧
   createGroup uuid s =
     setSelectedIds (λ _, ∅)
       (setLabelNameEdited false
          (setLabelName ""
             (setGroups (λ prev, prev ++ [new_group uuid s])
                (setError "" s))))).
Proof.
  unfold createGroup.
  change (selectedImages (setError "" s)) with (selectedImages s).
  change (groups (setError "" s)) with (groups s).
  destruct (length (selectedImages s) <? 1) eqn:H1; [by left|].
  destruct (3 <? length (selectedImages s)) eqn:H3; [by left|].
  apply Nat.ltb_ge in H1, H3. cbn [orb].
  destruct (MAX_BATCH <=? length (groups s)) eqn:Hm; [by left|].
  apply Nat.leb_gt in Hm. right. split; [lia|]. split; [done|]. reflexivity.
Qed.

Lemma createSinglesFromPool_exact uuids s :
  groups (createSinglesFromPool uuids s) =
  groups s ++
  imap (λ k img, single_group (beverageType s) (uuids k) img) (singles_target s).
Proof.
  unfold createSinglesFromPool, singles_target.
  change (poolImages (setError "" s)) with (poolImages s).
  change (groups (setError "" s)) with (groups s).
  change (beverageType (setError "" s)) with (beverageType s).
  destruct (length (poolImages s) =? 0) eqn:Hp.
  { apply Nat.eqb_eq, nil_length_inv in Hp. rewrite Hp, take_nil.
    by rewrite app_nil_r. }
  destruct (MAX_BATCH <=? length (groups s)) eqn:Hm; [|done].
  apply Nat.leb_le in Hm. replace (MAX_BATCH - length (groups s)) with 0 by lia.
  by rewrite app_nil_r.
Qed.

Section Growth.

Variable JSON_parse : string -> string + BatchEvent.t.
Variable P : LabelGroup.t -> Prop.
Hypothesis P_created :
  ∀ uuid s, 1 ≤ length (selectedImages s) ≤ 3 → P (new_group uuid s).
Hypothesis P_single : ∀ bt uuid img, P (single_group bt uuid img).

(** A property of the groups the two creating handlers build holds of
    every group of every reachable batch. *)
Lemma groups_invariant acts : Forall P (groups (run JSON_parse acts)).
Proof.
  unfold run. induction acts as [|a acts IH] using rev_ind; [constructor|].
  rewrite foldl_snoc. set (s := foldl _ _ acts) in *.
  assert (Hstep : groups (step JSON_parse s a) = groups (handle JSON_parse a s)).
  { unfold step, labelNameEffect. by destruct (labelNameEdited _). }
  rewrite Hstep. destruct a; simpl; try done.
  - by destruct (uploadFiles_frame createObjectURL server s) as [-> _].
  - destruct (createGroup_groups uuid s) as [(->&_)|(Hsel&_&->)]; [done|].
    simpl. apply Forall_app. split; [done|]. repeat constructor. by apply P_created.
  - rewrite createSinglesFromPool_exact. apply Forall_app. split; [done|].
    apply Forall_lookup. intros i g. rewrite list_lookup_imap.
    destruct (singles_target s !! i); intros [= <-]. apply P_single.
  - by destruct (startVerification_frame JSON_parse server s) as (->&_).
  - apply Forall_forall. intros g [_ Hin]%list_elem_of_filter.
    by eapply Forall_forall in Hin.
Qed.

End Growth.

(** X5. Every group of every reachable batch has a proper label name:
    not empty, and without white space at either end. *)
Theorem label_names_proper (JSON_parse : string -> string + BatchEvent.t)
    (acts : list Action) :
  Forall (λ g, proper_name (LabelGroup.label_name g))
    (groups (run JSON_parse acts)).
Proof.
  apply groups_invariant.
  - intros uuid s Hsel. simpl. unfold finalName. cbv zeta.
    destruct (String.eqb _ "") eqn:He.
    + apply suggestedLabelName_proper. intros Hnil. rewrite Hnil in Hsel.
      simpl in Hsel. lia.
    + apply String.eqb_neq in He. split; [done|apply trim_idem].
  - intros bt uuid img. simpl.
    destruct (baseLabelName_proper (UploadedImage.filename img)) as (?&?&_).
    by split.
Qed.

Section Suggested.

Variable JSON_parse : string -> string + BatchEvent.t.

Lemma unedited_name_is_suggestion acts :
  let s := run JSON_parse acts in
  labelNameEdited s = false →
  labelName s = suggestedLabelName (selectedImages s).
Proof.
  unfold run. induction acts as [|a acts _] using rev_ind; [done|].
  rewrite foldl_snoc. cbv zeta. unfold step at 1 3 5, labelNameEffect.
  destruct (labelNameEdited (handle _ _ _)) eqn:He; [by rewrite He|].
  intros _. reflexivity.
Qed.

(** X6. While the name field has not been edited, an accepted
    [createGroup] names the new group by the suggestion for the selected
    images; after the user typed a name that is not blank, it names the
    group by that name without its outer white space. *)
Theorem createGroup_name (acts : list Action) (uuid : string) :
  let s := run JSON_parse acts in
  (labelNameEdited s = false → selectedImages s ≠ [] →
   finalName s = suggestedLabelName (selectedImages s)) ∧
  (JS.trim (labelName s) ≠ "" → finalName s = JS.trim (labelName s)) ∧
  (1 ≤ length (selectedImages s) ≤ 3 → length (groups s) < MAX_BATCH →
   groups (createGroup uuid s) = groups s ++ [new_group uuid s]).
Proof.
  intros s. pose proof (unedited_name_is_suggestion acts) as Hinv.
  cbv zeta in Hinv. fold s in Hinv. split; [|split].
  - intros Hedit Hsel. unfold finalName. cbv zeta. rewrite (Hinv Hedit).
    destruct (suggestedLabelName_proper (selectedImages s) Hsel) as [_ ->].
    by destruct (String.eqb _ _).
  - intros Htyped. unfold finalName. cbv zeta.
    by apply String.eqb_neq in Htyped as ->.
  - intros Hsel Hroom.
    destruct (createGroup_cases uuid s) as [[? _]|[(_&?&_)|_]]; [done|lia|].
    destruct (createGroup_groups uuid s) as [(Hsame&_)|(_&_&->)]; [|done].
    exfalso. destruct (createGroup_cases uuid s)
      as [[? _]|[(_&?&_)|(_&_&name&Hg&_)]]; [done|lia|].
    rewrite Hsame in Hg. apply (f_equal length) in Hg.
    rewrite length_app in Hg. simpl in Hg. lia.
Qed.

End Suggested.

(** ** The pool of ungrouped uploads *)

Lemma elem_of_groupedIds gs id :
  id ∈ groupedIds gs ↔
  ∃ g img, g ∈ gs ∧ img ∈ LabelGroup.images g ∧ GroupImage.id img = id.
Proof.
  unfold groupedIds. rewrite elem_of_list_to_set, list_elem_of_bind.
  split.
  - intros (g & (img & -> & Himg)%list_elem_of_fmap & Hg). eauto.
  - intros (g & img & Hg & Himg & <-). exists g. split; [|done].
    apply list_elem_of_fmap. eauto.
Qed.

Lemma elem_of_uploaded_ids imgs id :
  id ∈ uploaded_ids imgs ↔ ∃ img, img ∈ imgs ∧ UploadedImage.id img = id.
Proof.
  unfold uploaded_ids. rewrite elem_of_list_to_set, list_elem_of_fmap.
  split; intros (img & ? & ?); eauto.
Qed.

Lemma groupedIds_app gs gs' id :
  id ∈ groupedIds (gs ++ gs') ↔ id ∈ groupedIds gs ∨ id ∈ groupedIds gs'.
Proof.
  rewrite !elem_of_groupedIds. setoid_rewrite elem_of_app. naive_solver.
Qed.

Lemma groupedIds_singles bt uuids target id :
  id ∈ groupedIds (imap (λ k img, single_group bt (uuids k) img) target) ↔
  id ∈ uploaded_ids target.
Proof.
  rewrite elem_of_groupedIds, elem_of_uploaded_ids. split.
  - intros (g & gi & (k & img & -> & Hk)%elem_of_lookup_imap_1 & Hgi & <-).
    simpl in Hgi. apply list_elem_of_singleton in Hgi as ->.
    exists img. split; [|done]. by eapply list_elem_of_lookup_2.
  - intros (img & (k & Hk)%list_elem_of_lookup_1 & <-).
    exists (single_group bt (uuids k) img), (toGroupImage img).
    split; [|split; [apply list_elem_of_here|done]].
    by apply (elem_of_lookup_imap_2
                (λ k img, single_group bt (uuids k) img) target img k).
Qed.

Lemma pool_after_groups s s' (added : gset string) :
  uploaded s' = uploaded s →
  (∀ id, id ∈ groupedIds (groups s') ↔ id ∈ groupedIds (groups s) ∨ id ∈ added) →
  poolImages s' =
  filter (λ item, UploadedImage.id item ∉ added) (poolImages s).
Proof.
  intros Hup Hids. unfold poolImages. rewrite Hup, list_filter_filter.
  apply list_filter_iff. intros item. rewrite Hids. tauto.
Qed.

Lemma filter_none {A} (P : A → Prop) `{!∀ x, Decision (P x)} (l : list A) :
  (∀ x, x ∈ l → ¬ P x) → filter P l = [].
Proof.
  induction l as [|a l IH]; [done|]. intros Hnone.
  rewrite filter_cons_False by (apply Hnone, list_elem_of_here).
  apply IH. intros x Hx. apply Hnone. by apply list_elem_of_further.
Qed.

Lemma createSinglesFromPool_uploaded uuids s :
  uploaded (createSinglesFromPool uuids s) = uploaded s.
Proof.
  unfold createSinglesFromPool. destruct (_ =? 0); [done|].
  by destruct (_ <=? _).
Qed.

(** X7. [createSinglesFromPool] takes out of the pool exactly the images
    it groups, the first ones the remaining capacity admits; when the whole
    pool fits, no ungrouped image is left. *)
Theorem createSinglesFromPool_pool (uuids : nat -> string) (s : AppState) :
  poolImages (createSinglesFromPool uuids s) =
    filter (λ item, UploadedImage.id item ∉ uploaded_ids (singles_target s))
      (poolImages s) ∧
  (length (poolImages s) ≤ MAX_BATCH - length (groups s) →
   poolImages (createSinglesFromPool uuids s) = []).
Proof.
  assert (Hpool :
    poolImages (createSinglesFromPool uuids s) =
    filter (λ item, UploadedImage.id item ∉ uploaded_ids (singles_target s))
      (poolImages s)).
  { apply pool_after_groups; [apply createSinglesFromPool_uploaded|].
    intros id. rewrite createSinglesFromPool_exact, groupedIds_app.
    by rewrite groupedIds_singles. }
  split; [exact Hpool|]. intros Hfits. rewrite Hpool.
  apply filter_none. intros img Himg Hout. apply Hout.
  apply elem_of_uploaded_ids. exists img. split; [|done].
  unfold singles_target. by rewrite take_ge.
Qed.

Lemma createSinglesFromPool_pool_witness :
  length (poolImages Sample.three_selected) ≤
    MAX_BATCH - length (groups Sample.three_selected) ∧
  poolImages (createSinglesFromPool (λ k, "L" +:+ pretty k)
                Sample.three_selected) = [].
Proof.
  assert (Hfits : length (poolImages Sample.three_selected) ≤
                  MAX_BATCH - length (groups Sample.three_selected))
    by (vm_compute; lia).
  split; [exact Hfits|].
  exact (proj2 (createSinglesFromPool_pool _ Sample.three_selected) Hfits).
Defined.

(** X8. An accepted [createGroup] appends one group that holds the selected
    uploads in upload order, takes those images out of the pool, and leaves
    the selection and the name field empty with no error shown. *)
Theorem createGroup_takes_selection (uuid : string) (s : AppState) :
  1 ≤ length (selectedImages s) ≤ 3 → length (groups s) < MAX_BATCH →
  groups (createGroup uuid s) = groups s ++ [new_group uuid s] ∧
  GroupImage.id <$> LabelGroup.images (new_group uuid s) =
    UploadedImage.id <$> selectedImages s ∧
  poolImages (createGroup uuid s) =
    filter (λ item, UploadedImage.id item ∉ uploaded_ids (selectedImages s))
      (poolImages s) ∧
  selectedImages (createGroup uuid s) = [] ∧
  labelName (createGroup uuid s) = "" ∧
  labelNameEdited (createGroup uuid s) = false ∧
  error (createGroup uuid s) = "".
Proof.
  intros Hsel Hroom.
  destruct (createGroup_groups uuid s) as [(Hsame&_)|(_&_&Hcreate)].
  { exfalso. destruct (createGroup_cases uuid s)
      as [[? _]|[(_&?&_)|(_&_&name&Hg&_)]]; [done|lia|].
    rewrite Hsame in Hg. apply (f_equal length) in Hg.
    rewrite length_app in Hg. simpl in Hg. lia. }
  rewrite Hcreate. split; [done|]. split.
  { simpl. rewrite <-list_fmap_compose. by apply list_fmap_ext. }
  split; [|split; [|done]].
  - apply pool_after_groups; [done|]. intros id. simpl.
    rewrite groupedIds_app. apply or_iff_compat_l.
    rewrite elem_of_groupedIds, elem_of_uploaded_ids. split.
    + intros (g & gi & ->%list_elem_of_singleton & Hgi & <-). simpl in Hgi.
      apply list_elem_of_fmap in Hgi as (img & -> & Himg). by exists img.
    + intros (img & Himg & <-).
      exists (new_group uuid s), (toGroupImage img).
      split; [apply list_elem_of_here|]. split; [|done].
      simpl. apply list_elem_of_fmap. eauto.
  - unfold selectedImages. simpl. apply filter_none. intros img _.
    apply not_elem_of_empty.
Qed.

Lemma createGroup_takes_selection_witness :
  1 ≤ length (selectedImages Sample.three_selected) ≤ 3 ∧
  length (groups Sample.three_selected) < MAX_BATCH ∧
  groups (createGroup "L-new" Sample.three_selected) =
    [new_group "L-new" Sample.three_selected] ∧
  selectedImages (createGroup "L-new" Sample.three_selected) = [].
Proof.
  assert (Hsel : 1 ≤ length (selectedImages Sample.three_selected) ≤ 3)
    by (vm_compute; lia).
  assert (Hroom : length (groups Sample.three_selected) < MAX_BATCH)
    by (vm_compute; lia).
  split; [exact Hsel|]. split; [exact Hroom|].
  destruct (createGroup_takes_selection "L-new" Sample.three_selected
              Hsel Hroom) as (Hgroups & _ & _ & Hnone & _).
  split; [exact Hgroups|exact Hnone].
Defined.


(** X10. [removeUngroupedImage] takes every upload with the given id out of
    the uploads, the pool and the selected images, keeps the others in
    order, and never touches the groups. *)
Theorem removeUngroupedImage_effect (id : string) (s : AppState) :
  uploaded (removeUngroupedImage id s) =
    filter (λ img, UploadedImage.id img ≠ id) (uploaded s) ∧
  selectedImages (removeUngroupedImage id s) =
    filter (λ img, UploadedImage.id img ≠ id) (selectedImages s) ∧
  poolImages (removeUngroupedImage id s) =
    filter (λ img, UploadedImage.id img ≠ id) (poolImages s) ∧
  (id ∉ selectedIds (removeUngroupedImage id s)) ∧
  groups (removeUngroupedImage id s) = groups s.
Proof.
  split; [done|]. split; [|split; [|split; [|done]]].
  - unfold selectedImages. simpl. rewrite !list_filter_filter.
    apply list_filter_iff. intros img. set_solver.
  - unfold poolImages. simpl. rewrite !list_filter_filter.
    apply list_filter_iff. intros img. tauto.
  - simpl. set_solver.
Qed.

(** ** Upload *)

Lemma merge_previews_spec url data lf :
  merge_previews url data lf =
  if decide (length data ≤ length lf)
  then Some (zip_with (with_preview url) data lf)
  else None.
Proof.
  revert lf. induction data as [|item data IH]; intros lf; [done|].
  destruct lf as [|file lf]; cbn [merge_previews].
  - destruct (decide (length (item :: data) ≤ length (@nil File.t)));
      [simpl in *; lia|done].
  - rewrite IH.
    destruct (decide (length data ≤ length lf)),
      (decide (length (item :: data) ≤ length (file :: lf)));
      simpl in *; try lia; done.
Qed.

(** X11. [uploadFiles] never drops or reorders an uploaded image: the
    uploads before are a prefix of the uploads after.  When the chosen
    files are all accepted and the server answers with at most as many
    items, these are appended in order, each with the preview of the file
    at its position, and the file choice is cleared; an answer with more
    items than files changes nothing but the cleared error; a refusal shows
    the server's detail, or "Upload failed" when there is none. *)
Theorem uploadFiles_appends (url : File.t -> string)
    (server : UploadRequest -> UploadResponse) (s : AppState) :
  uploaded s `prefix_of` uploaded (uploadFiles url server s) ∧
  (∀ fs, files s = Some fs → fs ≠ [] → Forall jpeg_or_png fs →
     match server (mkUpload fs fs) with
     | UploadOk data =>
         if decide (length data ≤ length fs)
         then uploadFiles url server s =
                setFiles None
                  (setUploaded
                     (λ prev, prev ++ zip_with (with_preview url) data fs)
                     (setError "" s))
         else uploadFiles url server s = setError "" s
     | UploadNotOk detail =>
         uploadFiles url server s = setError (default "Upload failed" detail) s
     | UploadRejected => uploadFiles url server s = setError "" s
     end).
Proof.
  assert (Hcases : ∀ fs, files s = Some fs → fs ≠ [] → Forall jpeg_or_png fs →
            uploadFiles url server s =
            uploadFiles_resume url (mkUpload fs fs) (server (mkUpload fs fs))
              (setError "" s)).
  { intros fs Hfiles Hne Hall. unfold uploadFiles, uploadFiles_begin.
    cbn [files setError]. rewrite Hfiles.
    destruct fs as [|f fs]; [done|].
    by rewrite (fill_form_accepts (f :: fs) [] Hall). }
  split.
  - unfold uploadFiles, uploadFiles_begin. cbn [files setError].
    destruct (files s) as [[|f fs]|]; [done| |done].
    destruct (fill_form _ _); [done|]. unfold uploadFiles_resume.
    destruct (server _) as [detail|data|]; [done| |done].
    destruct (merge_previews _ _ _) as [merged|]; [|done].
    simpl. by apply prefix_app_r.
  - intros fs Hfiles Hne Hall. rewrite (Hcases fs Hfiles Hne Hall).
    unfold uploadFiles_resume. destruct (server _) as [detail|data|]; [done| |done].
    cbn [localFiles]. rewrite merge_previews_spec. by destruct (decide _).
Qed.

Lemma uploadFiles_appends_witness :
  files (setFiles (Some [Sample.jpeg; Sample.png]) initial)
    = Some [Sample.jpeg; Sample.png] ∧
  Forall jpeg_or_png [Sample.jpeg; Sample.png] ∧
  uploaded (uploadFiles File.name (λ _, UploadOk [Sample.image 0])
              (setFiles (Some [Sample.jpeg; Sample.png]) initial))
    = [with_preview File.name (Sample.image 0) Sample.jpeg].
Proof.
  assert (Hall : Forall jpeg_or_png [Sample.jpeg; Sample.png]).
  { constructor; [by left|]. constructor; [by right|constructor]. }
  split; [reflexivity|]. split; [exact Hall|].
  destruct (uploadFiles_appends File.name (λ _, UploadOk [Sample.image 0])
              (setFiles (Some [Sample.jpeg; Sample.png]) initial))
    as (_ & Hok).
  specialize (Hok [Sample.jpeg; Sample.png] eq_refl ltac:(discriminate) Hall).
  cbv beta iota in Hok. rewrite decide_True in Hok by (simpl; lia).
  by rewrite Hok.
Defined.

(** ** Progress and results *)

(** X12. After a non-empty sequence of events the batch id and the
    progress counters are those of the last event received, and the results
    are listed newest first, in front of the results shown before. *)
Theorem receive_progress (events : list BatchEvent.t) (event : BatchEvent.t)
    (s : AppState) :
  batchId (receive (events ++ [event]) s) = BatchEvent.batch_id event ∧
  completed (receive (events ++ [event]) s) = BatchEvent.completed event ∧
  total (receive (events ++ [event]) s) = BatchEvent.total event ∧
  results (receive (events ++ [event]) s) =
    BatchEvent.result event :: reverse (BatchEvent.result <$> events)
    ++ results s.
Proof.
  rewrite receive_app. repeat split.
  simpl. by rewrite receive_results.
Qed.

Section Fresh.

Variable JSON_parse : string -> string + BatchEvent.t.


(** X14. The request [startVerification] sends from a reachable state
    lists the groups of the batch once each and in order, at most 100 of
    them, each with its own id and with one to three images. *)
Theorem request_labels_wellformed (acts : list Action) :
  length (requestLabels (groups (run JSON_parse acts))) ≤ 100 ∧
  RequestLabel.label_id <$> requestLabels (groups (run JSON_parse acts)) =
    LabelGroup.label_id <$> groups (run JSON_parse acts) ∧
  Forall (λ l, 1 ≤ length (RequestLabel.images l) ≤ 3)
    (requestLabels (groups (run JSON_parse acts))) ∧
  (λ l, RequestLabel.id <$> RequestLabel.images l) <$>
     requestLabels (groups (run JSON_parse acts)) =
    (λ g, GroupImage.id <$> LabelGroup.images g) <$>
      groups (run JSON_parse acts).
Proof.
  destruct (run_ok JSON_parse acts) as [Hsize Himages _].
  set (gs := groups (run JSON_parse acts)) in *. unfold requestLabels.
  split; [by rewrite length_fmap|]. split.
  { rewrite <-list_fmap_compose. by apply list_fmap_ext. }
  split.
  { apply Forall_fmap. eapply Forall_impl; [exact Himages|].
    intros g Hg. unfold group_size_ok in Hg. simpl. by rewrite length_fmap. }
  rewrite <-list_fmap_compose. apply list_fmap_ext. intros i g _. simpl.
  rewrite <-list_fmap_compose. by apply list_fmap_ext.
Qed.

End Fresh.

(** ** Selection, id by id *)

(** X15. [toggleSelection] changes the membership of the toggled id only:
    every other id stays selected or unselected as it was; the toggled id
    is selected afterwards exactly when it was not selected and fewer than
    three ids were. *)
Theorem toggleSelection_membership (id : string) (s : AppState) :
  (∀ id', id' ≠ id →
     (id' ∈ selectedIds (toggleSelection id s) ↔ id' ∈ selectedIds s)) ∧
  (id ∈ selectedIds (toggleSelection id s) ↔
   (id ∉ selectedIds s) ∧ size (selectedIds s) < 3).
Proof.
  simpl. unfold toggle. split.
  - intros id' Hne. repeat case_bool_decide; set_solver.
  - repeat case_bool_decide; [set_solver| |].
    + split; [done|]. intros [_ ?]. lia.
    + split; [intros _; split; [done|lia]|set_solver].
Qed.

(** ** Instances *)

Lemma sample_payload_well_framed :
  well_framed Sample.parse Sample.payload Sample.event.
Proof.
  split; [vm_compute; reflexivity|]. split; [|vm_compute; reflexivity].
  vm_compute. intros Heq. discriminate Heq.
Defined.

Lemma framed_events_received_witness :
  joined sample_chunks =
    joined (sse_frame <$> [Sample.payload]) +:+ sse_frame "done" ∧
  startVerification Sample.parse
    (λ _, Streaming ((ReadChunk <$> sample_chunks) ++ [ReadDone]))
    Sample.one_group =
  setBusy false (receive [Sample.event] (begun Sample.one_group)).
Proof.
  assert (Htext : joined sample_chunks =
    joined (sse_frame <$> [Sample.payload]) +:+ sse_frame "done")
    by (vm_compute; reflexivity).
  split; [exact Htext|].
  apply (framed_events_received Sample.parse _ [Sample.payload]
           [Sample.event] sample_chunks true Sample.one_group).
  - discriminate.
  - constructor; [exact sample_payload_well_framed|constructor].
  - exact Htext.
  - reflexivity.
Defined.

Lemma malformed_payload_stops_run_witness :
  Sample.parse (JS.trim "{oops") = inl "Unexpected token in JSON" ∧
  startVerification Sample.parse
    (λ _, Streaming ((ReadChunk <$> [sample_broken_body]) ++ [ReadDone]))
    Sample.one_group =
  setBusy false
    (setError "Unexpected token in JSON"
       (receive [Sample.event] (begun Sample.one_group))).
Proof.
  assert (Hbad : Sample.parse (JS.trim "{oops")
                 = inl "Unexpected token in JSON") by (vm_compute; reflexivity).
  split; [exact Hbad|].
  apply (malformed_payload_stops_run Sample.parse _ [Sample.payload]
           [Sample.event] "{oops" "Unexpected token in JSON"
           (sse_frame Sample.payload) [sample_broken_body] [ReadDone]
           Sample.one_group).
  - discriminate.
  - constructor; [exact sample_payload_well_framed|constructor].
  - reflexivity.
  - vm_compute. intros Heq. discriminate Heq.
  - exact Hbad.
  - vm_compute. reflexivity.
  - reflexivity.
Defined.

Lemma createGroup_name_witness :
  labelNameEdited (run Sample.parse sample_session) = false ∧
  selectedImages (run Sample.parse sample_session) ≠ [] ∧
  finalName (run Sample.parse sample_session) =
    suggestedLabelName (selectedImages (run Sample.parse sample_session)) ∧
  groups (createGroup "L-new" (run Sample.parse sample_session)) =
    [new_group "L-new" (run Sample.parse sample_session)].
Proof.
  assert (Hedit : labelNameEdited (run Sample.parse sample_session) = false)
    by (vm_compute; reflexivity).
  assert (Hsel : selectedImages (run Sample.parse sample_session) ≠ []).
  { vm_compute. intros Heq. discriminate Heq. }
  assert (Hone : 1 ≤ length (selectedImages (run Sample.parse sample_session)) ≤ 3)
    by (vm_compute; lia).
  assert (Hroom : length (groups (run Sample.parse sample_session)) < MAX_BATCH)
    by (vm_compute; lia).
  destruct (createGroup_name Sample.parse sample_session "L-new")
    as (Hsuggested & _ & Hadded).
  split; [exact Hedit|]. split; [exact Hsel|].
  split; [exact (Hsuggested Hedit Hsel)|]. exact (Hadded Hone Hroom).
Defined.



Lemma toggleSelection_membership_witness :
  ("img-0" : string) ≠ "img-3" ∧
  ("img-0" ∈ selectedIds (toggleSelection "img-3" Sample.three_selected) ↔
   "img-0" ∈ selectedIds Sample.three_selected).
Proof.
  assert (Hne : ("img-0" : string) ≠ "img-3") by discriminate.
  split; [exact Hne|].
  exact (proj1 (toggleSelection_membership "img-3" Sample.three_selected)
           "img-0" Hne).
Defined.
